(** * fileitem: a file-backed set of case-insensitive entries

    Shallow embedding of [fileitem.go] (package [fileitem]) and the
    properties of its specification.

    - Go strings are byte strings; they are modelled as [string] (one
      [ascii] per byte).
    - [gq.Set[string]] is a Go map used as a set; it is modelled as
      [gset string].
    - [*FileItem] is mutated in place; every method returns the updated
      record.
    - The file system is a finite map from paths to contents; every
      operating system call that can fail takes the outcome chosen by the
      environment, carried in a record [env].
    - [itemsMu] serialises the public methods; each method is one
      transition of the sequential model below. *)

From stdpp Require Import base gmap sets list strings.
From Stdlib Require Import Ascii String Permutation Lia.


(** ** Package [strings] *)

(** The functions of Go's [strings] package that the source calls.
    [TrimSpace] and [ToLower] are modelled at the byte level, as Go
    computes them on strings whose bytes are all below 0x80 (the
    [asciiSpace] table and the [isASCII] path of the library); bytes from
    0x80 upwards are kept unchanged and never count as white space. *)
Module strings.

Definition LF : ascii := "010"%char.
Definition CR : ascii := "013"%char.

(** The bytes marked in [asciiSpace]: tab, line feed, vertical tab, form
    feed, carriage return and space. *)
Definition isSpace (c : ascii) : bool :=
  let n := nat_of_ascii c in
  ((9 <=? n)%nat && (n <=? 13)%nat) || (n =? 32)%nat.

Definition isUpper (c : ascii) : bool :=
  let n := nat_of_ascii c in
  (65 <=? n)%nat && (n <=? 90)%nat.

(** ['A' <= c && c <= 'Z'] gives [c + 'a' - 'A']. *)
Definition lowerByte (c : ascii) : ascii :=
  if isUpper c then ascii_of_nat (nat_of_ascii c + 32) else c.

Fixpoint ToLower (s : string) : string :=
  match s with
  | "" => ""
  | String c t => String (lowerByte c) (ToLower t)
  end.

(** The scan from the front of [TrimSpace]: [start] moves past the white
    space. *)
Fixpoint TrimLeft (s : string) : string :=
  match s with
  | "" => ""
  | String c t => if isSpace c then TrimLeft t else s
  end.

(** The scan from the back of [TrimSpace]: [stop] moves before the white
    space. *)
Fixpoint TrimRight (s : string) : string :=
  match s with
  | "" => ""
  | String c t =>
      match TrimRight t with
      | "" => if isSpace c then "" else String c ""
      | t' => String c t'
      end
  end.

(** [s[start:stop]]. *)
Definition TrimSpace (s : string) : string := TrimRight (TrimLeft s).

(** [HasPrefix s prefix]. *)
Fixpoint HasPrefix (s prefix : string) {struct prefix} : bool :=
  match prefix, s with
  | "", _ => true
  | String p prefix', String c s' => Ascii.eqb p c && HasPrefix s' prefix'
  | String _ _, "" => false
  end.

(** [ReplaceAll s old new] for a non-empty [old]: the matches are taken
    from left to right and do not overlap; [skip] counts the bytes of the
    current match that are still to be passed over. *)
Fixpoint replaceFrom (skip : nat) (s old new : string) : string :=
  match s with
  | "" => ""
  | String c t =>
      match skip with
      | S k => replaceFrom k t old new
      | O =>
          if HasPrefix s old
          then new +:+ replaceFrom (String.length old - 1) t old new
          else String c (replaceFrom 0 t old new)
      end
  end.

Definition ReplaceAll (s old new : string) : string := replaceFrom 0 s old new.

(** [Split s sep] for a non-empty [sep], with the same left to right
    scan. The result is never empty: [Split "" sep] is the list holding
    the empty string. *)
Definition consHead (c : ascii) (ls : list string) : list string :=
  match ls with
  | l :: ls' => String c l :: ls'
  | [] => [String c ""]
  end.

Fixpoint splitFrom (skip : nat) (s sep : string) : list string :=
  match s with
  | "" => [""]
  | String c t =>
      match skip with
      | S k => splitFrom k t sep
      | O =>
          if HasPrefix s sep
          then "" :: splitFrom (String.length sep - 1) t sep
          else consHead c (splitFrom 0 t sep)
      end
  end.

Definition Split (s sep : string) : list string := splitFrom 0 s sep.

Fixpoint Join (elems : list string) (sep : string) : string :=
  match elems with
  | [] => ""
  | [e] => e
  | e :: rest => e +:+ sep +:+ Join rest sep
  end.

End strings.

(** The string literals ["\n"] and ["\r\n"] of the source. *)
Definition lf : string := String strings.LF "".
Definition crlf : string := String strings.CR lf.

(** ** Errors *)

(** The causes for which a call of package [os] fails, other than the
    absence of the file. *)
Inductive fault := EACCES | EISDIR | ENOSPC | EIO.

(** Go's [error] values met in the package: [errors.New msg], and the two
    kinds of [*PathError] that [os] returns, told apart by
    [os.IsNotExist]. *)
Inductive error :=
| errorString (msg : string)
| ErrNotExist
| PathError (cause : fault).

Module errors.
Definition New (msg : string) : error := errorString msg.
End errors.

(** The names the specification gives to the errors of the package. *)
Definition EmptyEntry (e : error) : Prop :=
  e = errors.New "cannot add empty entry" ∨ e = errors.New "cannot remove empty entry".
Definition AlreadyExists : error := errors.New "already exists".
Definition NotFound : error := errors.New "entry not found".
Definition IOFailure (e : error) : Prop :=
  e = ErrNotExist ∨ ∃ cause, e = PathError cause.
Definition validation_error (e : error) : Prop :=
  EmptyEntry e ∨ e = AlreadyExists ∨ e = NotFound.

(** ** Package [os] *)

(** The file system maps the paths of the existing files to their
    contents. A call that can fail receives the outcome the environment
    chose for it. The package never deletes a file and no other process
    writes to the file system. *)
Abbreviation filesystem := (gmap string string).

Module os.

(** [ReadFile name]: the content, [ErrNotExist] for a missing file, or
    the fault of the environment. *)
Definition ReadFile (name : string) (fs : filesystem) (o : option fault)
  : string + error :=
  match o with
  | Some cause => inr (PathError cause)
  | None =>
      match fs !! name with
      | Some data => inl data
      | None => inr ErrNotExist
      end
  end.

(** The failures of [WriteFile]: before the file is opened, which leaves
    the file system as it was, or after the file was truncated and the
    first [n] bytes were written. *)
Inductive write_failure :=
| FailOpen (cause : fault)
| FailAfter (n : nat) (cause : fault).

(** [WriteFile name data 0644]: creates or truncates the file and writes
    [data]. *)
Definition WriteFile (name data : string) (fs : filesystem) (o : option write_failure)
  : filesystem * option error :=
  match o with
  | None => (<[name := data]> fs, None)
  | Some (FailOpen cause) => (fs, Some (PathError cause))
  | Some (FailAfter n cause) =>
      (<[name := String.substring 0 n data]> fs, Some (PathError cause))
  end.

(** An open file, here always opened with [O_APPEND|O_WRONLY]: every
    write goes to the end of the file of that name. *)
Record File := { Name : string }.

Record FileInfo := { Size : nat }.

(** [OpenFile name (O_APPEND|O_CREATE|O_WRONLY) 0644]: a missing file is
    created empty. *)
Definition OpenFile (name : string) (fs : filesystem) (o : option fault)
  : filesystem * (File + error) :=
  match o with
  | Some cause => (fs, inr (PathError cause))
  | None =>
      match fs !! name with
      | Some _ => (fs, inl {| Name := name |})
      | None => (<[name := ""]> fs, inl {| Name := name |})
      end
  end.

(** [f.Stat()], with its error dropped as the source does. The query on
    an open handle is answered from the file the handle is open on;
    [None] is the nil [FileInfo] that the source tests for. *)
Definition Stat (f : File) (fs : filesystem) : option FileInfo :=
  (λ data, {| Size := String.length data |}) <$> fs !! Name f.

(** [f.WriteString s]; a failing write has appended the first [n] bytes
    of [s]. [f.Close()] has no effect on the content, and the source
    drops its result. *)
Definition WriteString (f : File) (s : string) (fs : filesystem) (o : option (nat * fault))
  : filesystem * option error :=
  let old := default "" (fs !! Name f) in
  match o with
  | None => (<[Name f := old +:+ s]> fs, None)
  | Some (n, cause) =>
      (<[Name f := old +:+ String.substring 0 n s]> fs, Some (PathError cause))
  end.

Definition IsNotExist (err : error) : bool :=
  match err with ErrNotExist => true | _ => false end.

End os.

(** ** Package [gq]: [Set[string]] *)

Module gq.

Definition Add (s : gset string) (x : string) : gset string := {[x]} ∪ s.
Definition Delete (s : gset string) (x : string) : gset string := s ∖ {[x]}.
Definition Contains (s : gset string) (x : string) : bool := bool_decide (x ∈ s).

(** Ranging over a Go map visits every key once, in an order that the
    runtime chooses anew each time. *)
Record order := {
  arrange : list string → list string;
  arrange_perm : ∀ l, arrange l ≡ₚ l
}.

Definition Values (s : gset string) (o : order) : list string :=
  arrange o (elements s).

End gq.

(** ** The environment of one call *)

Record env := {
  on_ReadFile : option fault;              (* [os.ReadFile] in [load] *)
  on_WriteFile : option os.write_failure;  (* [os.WriteFile] in [load] and [rewriteFile] *)
  on_OpenFile : option fault;              (* [os.OpenFile] in [appendToFile] *)
  on_newline : option (nat * fault);       (* [f.WriteString("\n")] *)
  on_item : option (nat * fault);          (* [f.WriteString(item)] *)
  range_order : gq.order                   (* [range fi.items.Values()] *)
}.

Definition in_order : gq.order :=
  {| gq.arrange := λ l, l; gq.arrange_perm := λ l, reflexivity l |}.

(** The environment in which no call fails. *)
Definition calm : env :=
  {| on_ReadFile := None; on_WriteFile := None; on_OpenFile := None;
     on_newline := None; on_item := None; range_order := in_order |}.

(** ** [FileItem] *)

Record FileItem := {
  path : string;
  items : gset string
}.

Definition set_items (fi : FileItem) (s : gset string) : FileItem :=
  {| path := path fi; items := s |}.

Definition contains (fi : FileItem) (item : string) : bool :=
  let item := strings.TrimSpace item in
  if String.eqb item "" then false
  else gq.Contains (items fi) (strings.ToLower item).

(** [Contains]: [contains] under the lock. *)
Definition Contains (fi : FileItem) (item : string) : bool := contains fi item.

(** [Items]: the values of the set, in the order of the iteration. *)
Definition Items (fi : FileItem) (e : env) : list string :=
  gq.Values (items fi) (range_order e).

(** One turn of the loop of [load]. *)
Definition load_line (fi : FileItem) (line : string) : FileItem :=
  let line := strings.TrimSpace line in
  if negb (String.eqb line "")
  then set_items fi (gq.Add (items fi) (strings.ToLower line))
  else fi.

Definition load (fi : FileItem) (fs : filesystem) (e : env)
  : FileItem * filesystem * option error :=
  match os.ReadFile (path fi) fs (on_ReadFile e) with
  | inr err =>
      if os.IsNotExist err
      then let '(fs', r) := os.WriteFile (path fi) "" fs (on_WriteFile e) in (fi, fs', r)
      else (fi, fs, Some err)
  | inl data =>
      let content := strings.ReplaceAll data crlf lf in
      let lines := strings.Split content lf in
      (foldl load_line fi lines, fs, None)
  end.

(** [New] returns the instance or the error, never both. *)
Definition New (path : string) (fs : filesystem) (e : env)
  : (FileItem + error) * filesystem :=
  let fi := {| path := path; items := ∅ |} in
  match load fi fs e with
  | (_, fs', Some err) => (inr err, fs')
  | (fi', fs', None) => (inl fi', fs')
  end.

Definition appendToFile (fi : FileItem) (item : string) (fs : filesystem) (e : env)
  : filesystem * option error :=
  match os.OpenFile (path fi) fs (on_OpenFile e) with
  | (fs0, inr err) => (fs0, Some err)
  | (fs0, inl f) =>
      let nonempty :=
        match os.Stat f fs0 with
        | Some stat => (0 <? os.Size stat)%nat
        | None => false
        end in
      let '(fs1, err) :=
        if nonempty then os.WriteString f lf fs0 (on_newline e) else (fs0, None) in
      match err with
      | Some err => (fs1, Some err)
      | None => os.WriteString f item fs1 (on_item e)
      end
  end.

Definition rewriteFile (fi : FileItem) (fs : filesystem) (e : env)
  : filesystem * option error :=
  let lines := gq.Values (items fi) (range_order e) in
  let content := strings.Join lines lf in
  os.WriteFile (path fi) content fs (on_WriteFile e).

Definition Add (fi : FileItem) (item : string) (fs : filesystem) (e : env)
  : FileItem * filesystem * option error :=
  let item := strings.TrimSpace item in
  if String.eqb item "" then (fi, fs, Some (errors.New "cannot add empty entry"))
  else if contains fi item then (fi, fs, Some (errors.New "already exists"))
  else
    let fi := set_items fi (gq.Add (items fi) (strings.ToLower item)) in
    match appendToFile fi item fs e with
    | (fs', Some err) => (fi, fs', Some err)
    | (fs', None) => (fi, fs', None)
    end.

Definition Remove (fi : FileItem) (item : string) (fs : filesystem) (e : env)
  : FileItem * filesystem * option error :=
  let item := strings.TrimSpace item in
  if String.eqb item "" then (fi, fs, Some (errors.New "cannot remove empty entry"))
  else if contains fi item then
    let fi := set_items fi (gq.Delete (items fi) (strings.ToLower item)) in
    let '(fs', r) := rewriteFile fi fs e in
    (fi, fs', r)
  else (fi, fs, Some (errors.New "entry not found")).

(** ** Runs of the package *)

Inductive call :=
| CallAdd (item : string)
| CallRemove (item : string).

Definition run (c : call) (fi : FileItem) (fs : filesystem) (e : env)
  : FileItem * filesystem * option error :=
  match c with
  | CallAdd item => Add fi item fs e
  | CallRemove item => Remove fi item fs e
  end.

(** The states of a store and its file system that the package can be in:
    [New] returned the store, and then any calls of [Add] and [Remove]
    were made, in any environment and with any result. *)
Inductive reachable : FileItem → filesystem → Prop :=
| reachable_New p fs e fi fs' :
    New p fs e = (inl fi, fs') → reachable fi fs'
| reachable_run c fi fs e fi' fs' r :
    reachable fi fs → run c fi fs e = (fi', fs', r) → reachable fi' fs'.

(** A string without line feed. *)
Fixpoint one_line (s : string) : bool :=
  match s with
  | "" => true
  | String c t => negb (Ascii.eqb c strings.LF) && one_line t
  end.

(** The same states when no [Add] was given an item that, trimmed, holds a
    line feed. *)
Inductive reachable_one_line : FileItem → filesystem → Prop :=
| one_line_New p fs e fi fs' :
    New p fs e = (inl fi, fs') → reachable_one_line fi fs'
| one_line_Add item fi fs e fi' fs' r :
    reachable_one_line fi fs →
    one_line (strings.TrimSpace item) = true →
    Add fi item fs e = (fi', fs', r) → reachable_one_line fi' fs'
| one_line_Remove item fi fs e fi' fs' r :
    reachable_one_line fi fs →
    Remove fi item fs e = (fi', fs', r) → reachable_one_line fi' fs'.

(** ** The reading of the file, in the words of the specification *)

(** Normalize ["\r\n"] to ["\n"], split on ["\n"], trim each line, drop the
    blank lines, lowercase the rest; the result is a set. *)
Definition line_entries (lines : list string) : gset string :=
  let trimmed := strings.TrimSpace <$> lines in
  let kept := filter (λ l, l ≠ "") trimmed in
  list_to_set (strings.ToLower <$> kept).

Definition parse_file (content : string) : gset string :=
  line_entries (strings.Split (strings.ReplaceAll content crlf lf) lf).

(** What a reader of the backing file of [fi] finds. *)
Definition disk_entries (fi : FileItem) (fs : filesystem) : option (gset string) :=
  parse_file <$> fs !! path fi.

(** An entry in the normal form of the store. *)
Definition normalized (x : string) : Prop :=
  x ≠ "" ∧ strings.TrimSpace x = x ∧ strings.ToLower x = x.

(** A line of the text as read and the same line of the normalized text
    differ at most by a carriage return at the end. *)
Definition same_line (l l' : string) : Prop :=
  l = l' ∨ l = l' +:+ String strings.CR "".

(** The content of the file after [appendToFile] wrote [item] to a file
    that held [old]. *)
Definition appended (old item : string) : string :=
  if (0 <? String.length old)%nat then (old +:+ lf) +:+ item else old +:+ item.

(** What holds of the entries of every store: see [reachable_normalized]. *)
Definition all_normalized (fi : FileItem) : Prop :=
  ∀ x, x ∈ items fi → normalized x.

Definition all_one_line (fi : FileItem) : Prop :=
  ∀ x, x ∈ items fi → one_line x = true.

(** The text ends with a line feed. *)
Fixpoint ends_with_LF (s : string) : bool :=
  match s with
  | "" => false
  | String c "" => Ascii.eqb c strings.LF
  | String _ t => ends_with_LF t
  end.

(** ** A store to run the package on *)

(** The store that [New] returns for a path without file, and the file
    system it leaves. *)
Definition entries_txt : string := "entries.txt".
Definition fresh_store : FileItem := {| path := entries_txt; items := ∅ |}.
Definition fresh_disk : filesystem := {[entries_txt := ""]}.

(** The store after [Add " Foo "] on the fresh store, and its file system. *)
Definition foo_store : FileItem := {| path := entries_txt; items := {["foo"]} |}.
Definition foo_disk : filesystem := {[entries_txt := "Foo"]}.

(** An item of two lines. *)
Definition two_lines : string := "a" +:+ lf +:+ "b".

(** An environment in which the file cannot be opened for appending. *)
Definition no_append : env :=
  {| on_ReadFile := None; on_WriteFile := None; on_OpenFile := Some EACCES;
     on_newline := None; on_item := None; range_order := in_order |}.

(** An environment in which the file cannot be written as a whole. *)
Definition no_rewrite : env :=
  {| on_ReadFile := None; on_WriteFile := Some (os.FailOpen EACCES); on_OpenFile := None;
     on_newline := None; on_item := None; range_order := in_order |}.

(** An environment in which the file cannot be read. *)
Definition no_read : env :=
  {| on_ReadFile := Some EACCES; on_WriteFile := None; on_OpenFile := None;
     on_newline := None; on_item := None; range_order := in_order |}.

(** ** Runs without failure of the file system *)

(** The item of a call. *)
Definition call_item (c : call) : string :=
  match c with
  | CallAdd item => item
  | CallRemove item => item
  end.

(** The trimmed, lowercased form under which the store keeps an item. *)
Definition normal_form (item : string) : string :=
  strings.ToLower (strings.TrimSpace item).

(** A result that is no failure of the file system: success, or an error
    of the validation. *)
Definition no_io_failure (r : option error) : Prop :=
  match r with
  | None => True
  | Some err => validation_error err
  end.

(** The states reached when no call has failed on the file system and no
    [Add] was given an item that, trimmed, holds a line feed. *)
Inductive reachable_in_step : FileItem → filesystem → Prop :=
| in_step_New p fs e fi fs' :
    New p fs e = (inl fi, fs') → reachable_in_step fi fs'
| in_step_Add item fi fs e fi' fs' r :
    reachable_in_step fi fs →
    one_line (strings.TrimSpace item) = true →
    Add fi item fs e = (fi', fs', r) → no_io_failure r →
    reachable_in_step fi' fs'
| in_step_Remove item fi fs e fi' fs' r :
    reachable_in_step fi fs →
    Remove fi item fs e = (fi', fs', r) → no_io_failure r →
    reachable_in_step fi' fs'.

(** The text begins with [prefix]. *)
Definition grown_from (prefix text : string) : Prop :=
  ∃ suffix, text = prefix +:+ suffix.

(** * Properties *)

(** ** Bytes *)

(** A fact about one byte, checked on all 256 of them. *)
Local Ltac by_bytes c :=
  destruct c as [[] [] [] [] [] [] [] []]; vm_compute; reflexivity.

Lemma isSpace_lowerByte c : strings.isSpace (strings.lowerByte c) = strings.isSpace c.
Proof. by_bytes c. Qed.

Lemma lowerByte_idem c : strings.lowerByte (strings.lowerByte c) = strings.lowerByte c.
Proof. by_bytes c. Qed.

Lemma lowerByte_LF c :
  Ascii.eqb (strings.lowerByte c) strings.LF = Ascii.eqb c strings.LF.
Proof. by_bytes c. Qed.

Lemma isSpace_LF : strings.isSpace strings.LF = true.
Proof. reflexivity. Qed.

Lemma isSpace_CR : strings.isSpace strings.CR = true.
Proof. reflexivity. Qed.

(** ** Appending *)

Lemma app_nil_r (s : string) : s +:+ "" = s.
Proof. induction s as [|c s IH]; [done|]. unfold String.app in *. simpl. by rewrite IH. Qed.

Lemma app_cons (c : ascii) (s t : string) : String c s +:+ t = String c (s +:+ t).
Proof. reflexivity. Qed.

Lemma app_assoc (s t u : string) : (s +:+ t) +:+ u = s +:+ t +:+ u.
Proof. induction s as [|c s IH]; [done|]. rewrite !app_cons. by rewrite IH. Qed.

Lemma app_length (s t : string) :
  String.length (s +:+ t) = String.length s + String.length t.
Proof. induction s as [|c s IH]; [done|]. rewrite app_cons. simpl. by rewrite IH. Qed.

Lemma length_zero (s : string) : String.length s = 0 → s = "".
Proof. by destruct s. Qed.

Lemma eqb_empty (s : string) : String.eqb s "" = bool_decide (s = "").
Proof. destruct s; reflexivity. Qed.

(** ** [ToLower] *)

Lemma ToLower_idem s : strings.ToLower (strings.ToLower s) = strings.ToLower s.
Proof. induction s as [|c s IH]; simpl; [done|]. by rewrite lowerByte_idem, IH. Qed.

Lemma ToLower_empty s : strings.ToLower s = "" → s = "".
Proof. by destruct s. Qed.

Lemma ToLower_one_line s : one_line (strings.ToLower s) = one_line s.
Proof. induction s as [|c s IH]; simpl; [done|]. by rewrite lowerByte_LF, IH. Qed.

(** ** [TrimSpace] *)

Lemma TrimRight_cons c t :
  strings.TrimRight (String c t) =
    if strings.isSpace c && bool_decide (strings.TrimRight t = "")
    then "" else String c (strings.TrimRight t).
Proof.
  simpl. destruct (strings.TrimRight t) eqn:E, (strings.isSpace c); done.
Qed.

Lemma TrimRight_idem s :
  strings.TrimRight (strings.TrimRight s) = strings.TrimRight s.
Proof.
  induction s as [|c s IH]; [done|].
  rewrite TrimRight_cons.
  destruct (strings.isSpace c && _) eqn:E; [done|].
  by rewrite TrimRight_cons, IH, E.
Qed.

Lemma TrimLeft_head s :
  strings.TrimLeft s = "" ∨
  ∃ c t, strings.TrimLeft s = String c t ∧ strings.isSpace c = false.
Proof.
  induction s as [|c s IH]; simpl; [by left|].
  destruct (strings.isSpace c) eqn:E; [done|]. right. eauto.
Qed.

Lemma TrimLeft_fixed c t :
  strings.isSpace c = false → strings.TrimLeft (String c t) = String c t.
Proof. intros E. simpl. by rewrite E. Qed.

Lemma TrimSpace_idem s :
  strings.TrimSpace (strings.TrimSpace s) = strings.TrimSpace s.
Proof.
  unfold strings.TrimSpace.
  destruct (TrimLeft_head s) as [->|(c & t & -> & E)]; [done|].
  assert (strings.TrimRight (String c t) = String c (strings.TrimRight t)) as H
    by (by rewrite TrimRight_cons, E).
  rewrite H, TrimLeft_fixed by done. rewrite <-H. apply TrimRight_idem.
Qed.

Lemma TrimLeft_ToLower s :
  strings.TrimLeft (strings.ToLower s) = strings.ToLower (strings.TrimLeft s).
Proof.
  induction s as [|c s IH]; simpl; [done|].
  rewrite isSpace_lowerByte. by destruct (strings.isSpace c).
Qed.

Lemma TrimRight_ToLower s :
  strings.TrimRight (strings.ToLower s) = strings.ToLower (strings.TrimRight s).
Proof.
  induction s as [|c s IH]; [done|].
  change (strings.ToLower (String c s)) with (String (strings.lowerByte c) (strings.ToLower s)).
  rewrite !TrimRight_cons, IH, isSpace_lowerByte.
  destruct (strings.TrimRight s) eqn:E, (strings.isSpace c); done.
Qed.

(** Trimming and lowercasing commute: no letter is white space. *)
Lemma TrimSpace_ToLower s :
  strings.TrimSpace (strings.ToLower s) = strings.ToLower (strings.TrimSpace s).
Proof. unfold strings.TrimSpace. by rewrite TrimLeft_ToLower, TrimRight_ToLower. Qed.

Lemma TrimRight_snoc s c :
  strings.isSpace c = true →
  strings.TrimRight (s +:+ String c "") = strings.TrimRight s.
Proof.
  intros E. induction s as [|d s IH].
  - change ("" +:+ String c "") with (String c ""). simpl. by rewrite E.
  - by rewrite app_cons, !TrimRight_cons, IH.
Qed.

Lemma TrimLeft_snoc s c :
  strings.isSpace c = true →
  strings.TrimLeft (s +:+ String c "") =
    if bool_decide (strings.TrimLeft s = "") then "" else strings.TrimLeft s +:+ String c "".
Proof.
  intros E. induction s as [|d s IH].
  - change ("" +:+ String c "") with (String c ""). simpl. by rewrite E.
  - rewrite app_cons. simpl. destruct (strings.isSpace d); [done|].
    by rewrite bool_decide_eq_false_2.
Qed.

(** White space at the end of a line does not show after trimming. *)
Lemma TrimSpace_snoc s c :
  strings.isSpace c = true →
  strings.TrimSpace (s +:+ String c "") = strings.TrimSpace s.
Proof.
  intros E. unfold strings.TrimSpace. rewrite TrimLeft_snoc by done.
  case_bool_decide as H; [by rewrite H|]. by apply TrimRight_snoc.
Qed.

Lemma TrimLeft_one_line s : one_line s = true → one_line (strings.TrimLeft s) = true.
Proof.
  induction s as [|c s IH]; simpl; [done|].
  intros [? ?]%andb_prop. destruct (strings.isSpace c); simpl; [auto|].
  by apply andb_true_intro.
Qed.

Lemma TrimRight_one_line s : one_line s = true → one_line (strings.TrimRight s) = true.
Proof.
  induction s as [|c s IH]; [done|].
  intros [? ?]%andb_prop. rewrite TrimRight_cons.
  destruct (_ && _); simpl; [done|]. apply andb_true_intro; auto.
Qed.

Lemma TrimSpace_one_line s : one_line s = true → one_line (strings.TrimSpace s) = true.
Proof. intros. by apply TrimRight_one_line, TrimLeft_one_line. Qed.

Lemma TrimLeft_length s : String.length (strings.TrimLeft s) ≤ String.length s.
Proof. induction s as [|c s IH]; simpl; [done|]. destruct (strings.isSpace c); simpl; lia. Qed.

Lemma TrimRight_length s : String.length (strings.TrimRight s) ≤ String.length s.
Proof.
  induction s as [|c s IH]; [done|]. rewrite TrimRight_cons.
  destruct (_ && _); simpl; lia.
Qed.

Lemma TrimSpace_length s : String.length (strings.TrimSpace s) ≤ String.length s.
Proof.
  unfold strings.TrimSpace.
  pose proof (TrimRight_length (strings.TrimLeft s)). pose proof (TrimLeft_length s). lia.
Qed.

(** ** [ReplaceAll] and [Split] on the literals of the source *)

Lemma ReplaceAll_crlf t :
  strings.ReplaceAll (String strings.CR (String strings.LF t)) crlf lf
  = String strings.LF (strings.ReplaceAll t crlf lf).
Proof. reflexivity. Qed.

Lemma ReplaceAll_other c t :
  strings.HasPrefix (String c t) crlf = false →
  strings.ReplaceAll (String c t) crlf lf = String c (strings.ReplaceAll t crlf lf).
Proof. intros E. unfold strings.ReplaceAll. cbn [strings.replaceFrom]. by rewrite E. Qed.

Lemma HasPrefix_crlf c t :
  strings.HasPrefix (String c t) crlf = true →
  c = strings.CR ∧ ∃ t', t = String strings.LF t'.
Proof.
  unfold crlf, lf. cbn [strings.HasPrefix].
  intros [E1 E2]%andb_prop. apply Ascii.eqb_eq in E1 as <-. split; [done|].
  destruct t as [|d t]; [done|]. apply andb_prop in E2 as [E2 _].
  apply Ascii.eqb_eq in E2 as <-. eauto.
Qed.

Lemma Split_LF t : strings.Split (String strings.LF t) lf = "" :: strings.Split t lf.
Proof. reflexivity. Qed.

Lemma Split_other c t :
  Ascii.eqb c strings.LF = false →
  strings.Split (String c t) lf = strings.consHead c (strings.Split t lf).
Proof.
  intros E. unfold strings.Split, lf. cbn [strings.splitFrom strings.HasPrefix].
  by rewrite Ascii.eqb_sym, E.
Qed.

Lemma Split_cons c t :
  strings.Split (String c t) lf =
    if Ascii.eqb c strings.LF then "" :: strings.Split t lf
    else strings.consHead c (strings.Split t lf).
Proof.
  destruct (Ascii.eqb c strings.LF) eqn:E; [|by apply Split_other].
  apply Ascii.eqb_eq in E as ->. apply Split_LF.
Qed.

Lemma Split_nonempty s : strings.Split s lf ≠ [].
Proof.
  destruct s as [|c t]; [done|]. rewrite Split_cons.
  destruct (Ascii.eqb c strings.LF); [done|]. by destruct (strings.Split t lf).
Qed.

Lemma consHead_app c ls ls' :
  ls ≠ [] → strings.consHead c (ls ++ ls') = strings.consHead c ls ++ ls'.
Proof. by destruct ls. Qed.

(** The lines of two texts put one after the other with a line feed
    between them. *)
Lemma Split_app a b :
  strings.Split (a +:+ String strings.LF b) lf = strings.Split a lf ++ strings.Split b lf.
Proof.
  induction a as [|c a IH]; [apply Split_LF|].
  rewrite app_cons, !Split_cons, IH.
  destruct (Ascii.eqb c strings.LF); [done|]. apply consHead_app, Split_nonempty.
Qed.

Lemma Split_one_line s : one_line s = true → strings.Split s lf = [s].
Proof.
  induction s as [|c s IH]; [done|]. simpl. intros [E ?]%andb_prop.
  apply negb_true_iff in E. by rewrite Split_other, IH.
Qed.

Lemma Split_lines s : Forall (λ l, one_line l = true) (strings.Split s lf).
Proof.
  induction s as [|c s IH]; [by repeat constructor|].
  rewrite Split_cons. destruct (Ascii.eqb c strings.LF) eqn:E; [by constructor|].
  destruct IH as [|l ls Hl Hls]; simpl; constructor; simpl; try done.
  - by rewrite E.
  - by rewrite E, Hl.
Qed.

Lemma Split_Join ls :
  ls ≠ [] → Forall (λ l, one_line l = true) ls →
  strings.Split (strings.Join ls lf) lf = ls.
Proof.
  induction ls as [|e [|e' rest] IH]; [done| |]; intros _ H.
  - apply Split_one_line. by inversion H.
  - inversion H as [|?? He Hrest]; subst.
    change (strings.Join (e :: e' :: rest) lf)
      with (e +:+ String strings.LF (strings.Join (e' :: rest) lf)).
    by rewrite Split_app, Split_one_line, IH.
Qed.

Lemma same_line_consHead c ls ls' :
  Forall2 same_line ls ls' →
  Forall2 same_line (strings.consHead c ls) (strings.consHead c ls').
Proof.
  destruct 1 as [|l l' ls ls' [->| ->] H]; simpl.
  - constructor; [by left|constructor].
  - constructor; [by left|done].
  - constructor; [by right|done].
Qed.

Lemma Split_ReplaceAll_bounded n s :
  String.length s ≤ n →
  Forall2 same_line (strings.Split s lf) (strings.Split (strings.ReplaceAll s crlf lf) lf).
Proof.
  revert s. induction n as [|n IH]; intros s Hn.
  { destruct s; [|simpl in Hn; lia]. repeat constructor. }
  destruct s as [|c t]; [repeat constructor|]. simpl in Hn.
  destruct (strings.HasPrefix (String c t) crlf) eqn:E.
  - apply HasPrefix_crlf in E as [-> [t' ->]]. simpl in Hn.
    rewrite ReplaceAll_crlf, Split_LF, Split_other, Split_LF by done.
    cbn [strings.consHead]. constructor; [by right|]. apply IH. lia.
  - rewrite ReplaceAll_other, !Split_cons by done.
    destruct (Ascii.eqb c strings.LF).
    + constructor; [by left|]. apply IH. lia.
    + apply same_line_consHead, IH. lia.
Qed.

Lemma same_line_TrimSpace ls ls' :
  Forall2 same_line ls ls' → strings.TrimSpace <$> ls = strings.TrimSpace <$> ls'.
Proof.
  induction 1 as [|l l' ls ls' [->| ->] _ IH]; [done| |]; rewrite !fmap_cons, IH; [done|].
  by rewrite TrimSpace_snoc.
Qed.

(** ** Entries of a text *)

Lemma line_entries_cons l ls :
  line_entries (l :: ls) =
    if bool_decide (strings.TrimSpace l = "") then line_entries ls
    else {[strings.ToLower (strings.TrimSpace l)]} ∪ line_entries ls.
Proof.
  unfold line_entries. simpl. rewrite filter_cons.
  case_bool_decide; destruct (decide _); done.
Qed.

Lemma line_entries_app ls ls' :
  line_entries (ls ++ ls') = line_entries ls ∪ line_entries ls'.
Proof.
  induction ls as [|l ls IH]; simpl.
  - unfold line_entries at 2. simpl. set_solver.
  - rewrite !line_entries_cons, IH. case_bool_decide; set_solver.
Qed.

(** Normalizing the line ends changes nothing of what is read: a carriage
    return before a line end would be trimmed with the line. *)
Lemma parse_file_lines content :
  parse_file content = line_entries (strings.Split content lf).
Proof.
  unfold parse_file, line_entries.
  by rewrite <-(same_line_TrimSpace _ _ (Split_ReplaceAll_bounded _ content (le_n _))).
Qed.

Lemma line_entries_normalized ls :
  Forall normalized ls → line_entries ls = list_to_set ls.
Proof.
  induction 1 as [|l ls (Hne & Ht & Hl) _ IH]; [done|].
  rewrite line_entries_cons, Ht, Hl, IH. by rewrite bool_decide_eq_false_2.
Qed.

(** ** The methods, case by case *)

Lemma set_items_same fi : set_items fi (items fi) = fi.
Proof. by destruct fi. Qed.

Lemma contains_spec fi item :
  contains fi item = true ↔
  strings.TrimSpace item ≠ "" ∧ strings.ToLower (strings.TrimSpace item) ∈ items fi.
Proof.
  unfold contains, gq.Contains. rewrite eqb_empty.
  case_bool_decide as H; [naive_solver|].
  rewrite bool_decide_eq_true. naive_solver.
Qed.

Lemma contains_false fi item :
  strings.TrimSpace item ≠ "" →
  strings.ToLower (strings.TrimSpace item) ∉ items fi →
  contains fi item = false.
Proof.
  intros ??. apply not_true_is_false. rewrite contains_spec. naive_solver.
Qed.

(** The entry that [Add] and [Remove] work on. *)
Lemma normal_form_normalized item :
  strings.TrimSpace item ≠ "" → normalized (strings.ToLower (strings.TrimSpace item)).
Proof.
  intros H. repeat split.
  - by intros ?%ToLower_empty.
  - by rewrite TrimSpace_ToLower, TrimSpace_idem.
  - apply ToLower_idem.
Qed.

Lemma foldl_load_line ls fi :
  foldl load_line fi ls = set_items fi (line_entries ls ∪ items fi).
Proof.
  revert fi. induction ls as [|l ls IH]; intros fi.
  - simpl. rewrite <-(set_items_same fi) at 1. f_equal. set_solver.
  - simpl. rewrite IH, line_entries_cons. unfold load_line.
    rewrite eqb_empty. destruct (bool_decide _); simpl; [done|].
    unfold set_items, gq.Add. simpl. f_equal. set_solver.
Qed.

Lemma New_existing p fs e content :
  fs !! p = Some content → on_ReadFile e = None →
  New p fs e = (inl {| path := p; items := parse_file content |}, fs).
Proof.
  intros Hp He. unfold New, load, os.ReadFile. simpl. rewrite He, Hp.
  rewrite foldl_load_line. unfold set_items. simpl. do 2 f_equal.
  unfold parse_file. f_equal. set_solver.
Qed.

Lemma New_missing p fs e :
  os.ReadFile p fs (on_ReadFile e) = inr ErrNotExist → on_WriteFile e = None →
  New p fs e = (inl {| path := p; items := ∅ |}, <[p := ""]> fs).
Proof.
  intros Hr Hw. unfold New, load. simpl. rewrite Hr. simpl.
  unfold os.WriteFile. by rewrite Hw.
Qed.

Lemma ReadFile_cases p fs o :
  (∃ data, fs !! p = Some data ∧ o = None ∧ os.ReadFile p fs o = inl data) ∨
  (fs !! p = None ∧ o = None ∧ os.ReadFile p fs o = inr ErrNotExist) ∨
  (∃ cause, o = Some cause ∧ os.ReadFile p fs o = inr (PathError cause)).
Proof.
  unfold os.ReadFile. destruct o as [cause|]; [eauto 6|].
  destruct (fs !! p) as [data|]; [left|right; left]; eauto.
Qed.

(** A store that [New] returned holds what its file reads as. *)
Lemma New_inl p fs e fi fs' :
  New p fs e = (inl fi, fs') →
  path fi = p ∧ ∃ content, fs' !! p = Some content ∧ items fi = parse_file content.
Proof.
  destruct (ReadFile_cases p fs (on_ReadFile e))
    as [(data & Hp & Ho & Hr)|[(Hp & Ho & Hr)|(cause & Ho & Hr)]].
  - rewrite (New_existing _ _ _ _ Hp Ho). intros [= <- <-]. simpl. eauto.
  - unfold New, load. simpl. rewrite Hr. simpl. unfold os.WriteFile.
    destruct (on_WriteFile e) as [[]|]; [done..|].
    intros [= <- <-]. simpl. split; [done|]. exists "". by rewrite lookup_insert_eq.
  - unfold New, load. simpl. by rewrite Hr.
Qed.

Lemma Add_cases fi item fs e :
  let x := strings.ToLower (strings.TrimSpace item) in
  (strings.TrimSpace item = "" ∧
   Add fi item fs e = (fi, fs, Some (errors.New "cannot add empty entry"))) ∨
  (strings.TrimSpace item ≠ "" ∧ x ∈ items fi ∧
   Add fi item fs e = (fi, fs, Some AlreadyExists)) ∨
  (strings.TrimSpace item ≠ "" ∧ (x ∉ items fi) ∧
   ∃ fs' r,
     appendToFile (set_items fi ({[x]} ∪ items fi)) (strings.TrimSpace item) fs e = (fs', r) ∧
     Add fi item fs e = (set_items fi ({[x]} ∪ items fi), fs', r)).
Proof.
  intros x. unfold Add. rewrite eqb_empty.
  case_bool_decide as Hne; [by left|]. right.
  destruct (contains fi (strings.TrimSpace item)) eqn:Hc.
  - left. apply contains_spec in Hc as [_ Hc]. rewrite TrimSpace_idem in Hc. done.
  - right. split; [done|]. split.
    + intros Hx. apply not_true_iff_false in Hc. apply Hc, contains_spec.
      by rewrite TrimSpace_idem.
    + unfold gq.Add. fold x.
      destruct (appendToFile _ _ _ _) as [fs' [err|]]; eauto.
Qed.

Lemma Remove_cases fi item fs e :
  let x := strings.ToLower (strings.TrimSpace item) in
  (strings.TrimSpace item = "" ∧
   Remove fi item fs e = (fi, fs, Some (errors.New "cannot remove empty entry"))) ∨
  (strings.TrimSpace item ≠ "" ∧ (x ∉ items fi) ∧
   Remove fi item fs e = (fi, fs, Some NotFound)) ∨
  (strings.TrimSpace item ≠ "" ∧ x ∈ items fi ∧
   ∃ fs' r,
     rewriteFile (set_items fi (items fi ∖ {[x]})) fs e = (fs', r) ∧
     Remove fi item fs e = (set_items fi (items fi ∖ {[x]}), fs', r)).
Proof.
  intros x. unfold Remove. rewrite eqb_empty.
  case_bool_decide as Hne; [by left|]. right.
  destruct (contains fi (strings.TrimSpace item)) eqn:Hc.
  - right. apply contains_spec in Hc as [_ Hc]. rewrite TrimSpace_idem in Hc.
    do 2 (split; [done|]). unfold gq.Delete. fold x.
    destruct (rewriteFile _ _ _) as [fs' r]. eauto.
  - left. split; [done|]. split; [|done].
    intros Hx. apply not_true_iff_false in Hc. apply Hc, contains_spec.
    by rewrite TrimSpace_idem.
Qed.

Lemma appendToFile_ok fi item fs e fs' :
  appendToFile fi item fs e = (fs', None) →
  fs' = <[path fi := appended (default "" (fs !! path fi)) item]> fs.
Proof.
  unfold appendToFile, os.OpenFile, os.Stat, os.WriteString, appended.
  destruct (on_OpenFile e); [done|].
  destruct (fs !! path fi) as [c|] eqn:Hp; simpl.
  - rewrite Hp. simpl. destruct (0 <? String.length c)%nat.
    + destruct (on_newline e) as [[]|]; [done|].
      rewrite lookup_insert_eq. simpl.
      destruct (on_item e) as [[]|]; [done|].
      intros [= <-]. by rewrite insert_insert_eq.
    + rewrite Hp. simpl. destruct (on_item e) as [[]|]; [done|]. by intros [= <-].
  - rewrite lookup_insert_eq. simpl. rewrite lookup_insert_eq. simpl.
    destruct (on_item e) as [[]|]; [done|].
    intros [= <-]. by rewrite insert_insert_eq.
Qed.

Lemma appendToFile_error fi item fs e fs' err :
  appendToFile fi item fs e = (fs', Some err) → ∃ cause, err = PathError cause.
Proof.
  unfold appendToFile, os.OpenFile, os.WriteString.
  destruct (on_OpenFile e); [intros [= <- <-]; eauto|].
  destruct (fs !! path fi); simpl;
    repeat match goal with
    | |- context [match ?o with Some _ => _ | None => _ end] => destruct o as [[]|] eqn:?; simpl
    | |- context [if ?b then _ else _] => destruct b eqn:?; simpl
    end; intros [= <- <-] || intros [=]; eauto.
Qed.

Lemma appendToFile_open_fault fi item fs e cause :
  on_OpenFile e = Some cause →
  appendToFile fi item fs e = (fs, Some (PathError cause)).
Proof. intros H. unfold appendToFile, os.OpenFile. by rewrite H. Qed.

Lemma rewriteFile_error fi fs e fs' err :
  rewriteFile fi fs e = (fs', Some err) → ∃ cause, err = PathError cause.
Proof.
  unfold rewriteFile, os.WriteFile.
  destruct (on_WriteFile e) as [[]|]; intros [= <- <-] || intros [=]; eauto.
Qed.

Lemma rewriteFile_ok fi fs e fs' :
  rewriteFile fi fs e = (fs', None) →
  fs' = <[path fi := strings.Join (gq.Values (items fi) (range_order e)) lf]> fs.
Proof.
  unfold rewriteFile, os.WriteFile.
  destruct (on_WriteFile e) as [[]|]; intros [=]; done.
Qed.

Lemma Add_items fi item fs e fi' fs' r :
  Add fi item fs e = (fi', fs', r) →
  path fi' = path fi ∧
  (items fi' = items fi ∨
   strings.TrimSpace item ≠ "" ∧
   items fi' = {[strings.ToLower (strings.TrimSpace item)]} ∪ items fi).
Proof.
  destruct (Add_cases fi item fs e) as [[_ ->]|[(_ & _ & ->)|(? & _ & ? & ? & _ & ->)]];
    intros [= <- <- <-]; auto.
Qed.

Lemma Remove_items fi item fs e fi' fs' r :
  Remove fi item fs e = (fi', fs', r) →
  path fi' = path fi ∧ items fi' ⊆ items fi.
Proof.
  destruct (Remove_cases fi item fs e) as [[_ ->]|[(_ & _ & ->)|(? & _ & ? & ? & _ & ->)]];
    intros [= <- <- <-]; simpl; split; set_solver.
Qed.

(** ** What holds of every store *)

Lemma elem_of_line_entries x ls :
  x ∈ line_entries ls →
  ∃ l, l ∈ ls ∧ strings.TrimSpace l ≠ "" ∧ x = strings.ToLower (strings.TrimSpace l).
Proof.
  induction ls as [|l ls IH].
  - unfold line_entries. simpl. set_solver.
  - rewrite line_entries_cons. case_bool_decide as H.
    + intros (l' & ? & ?)%IH. exists l'. split; [by right|done].
    + rewrite elem_of_union, elem_of_singleton. intros [->|(l' & ? & ?)%IH].
      * exists l. split; [by left|done].
      * exists l'. split; [by right|done].
Qed.

Lemma parse_file_normalized content x :
  x ∈ parse_file content → normalized x ∧ one_line x = true.
Proof.
  rewrite parse_file_lines. intros (l & Hl & Hne & ->)%elem_of_line_entries.
  split; [by apply normal_form_normalized|].
  rewrite ToLower_one_line. apply TrimSpace_one_line.
  pose proof (Split_lines content) as H. rewrite Forall_forall in H. by apply H.
Qed.

Lemma New_normalized p fs e fi fs' :
  New p fs e = (inl fi, fs') → all_normalized fi ∧ all_one_line fi.
Proof.
  intros (_ & content & _ & Hi)%New_inl.
  split; intros x; rewrite Hi; intros ?%parse_file_normalized; tauto.
Qed.

Lemma run_normalized c fi fs e fi' fs' r :
  all_normalized fi → run c fi fs e = (fi', fs', r) → all_normalized fi'.
Proof.
  intros Hn. destruct c as [item|item]; simpl.
  - intros [_ [Hi|[Hne Hi]]]%Add_items x; rewrite Hi; [by apply Hn|].
    rewrite elem_of_union, elem_of_singleton. intros [->|?]; [|by apply Hn].
    by apply normal_form_normalized.
  - intros [_ Hi]%Remove_items x ?. apply Hn. set_solver.
Qed.

(** Every entry of every store is non-empty, trimmed and in lower case. *)
Lemma reachable_normalized fi fs : reachable fi fs → all_normalized fi.
Proof.
  induction 1 as [p fs e fi fs' H|c fi fs e fi' fs' r _ IH H].
  - by apply New_normalized in H as [? _].
  - by eapply run_normalized.
Qed.

Lemma reachable_one_line_reachable fi fs : reachable_one_line fi fs → reachable fi fs.
Proof.
  induction 1 as [p fs e fi fs' H|item fi fs e fi' fs' r _ IH _ H|item fi fs e fi' fs' r _ IH H].
  - by eapply reachable_New.
  - by eapply (reachable_run (CallAdd item)).
  - by eapply (reachable_run (CallRemove item)).
Qed.

Lemma reachable_one_line_entries fi fs : reachable_one_line fi fs → all_one_line fi.
Proof.
  induction 1 as [p fs e fi fs' H|item fi fs e fi' fs' r _ IH Hl H|item fi fs e fi' fs' r _ IH H].
  - by apply New_normalized in H as [_ ?].
  - apply Add_items in H as [_ [Hi|[Hne Hi]]]; intros x; rewrite Hi; [by apply IH|].
    rewrite elem_of_union, elem_of_singleton. intros [->|?]; [|by apply IH].
    by rewrite ToLower_one_line.
  - apply Remove_items in H as [_ Hi]. intros x ?. apply IH. set_solver.
Qed.

(** ** What the file reads as after a write *)

Lemma parse_file_empty : parse_file "" = ∅.
Proof. rewrite parse_file_lines. unfold line_entries. simpl. set_solver. Qed.

Lemma line_entries_single item :
  strings.TrimSpace item = item → item ≠ "" →
  line_entries [item] = {[strings.ToLower item]}.
Proof.
  intros Ht Hne. rewrite line_entries_cons, Ht, bool_decide_eq_false_2 by done.
  unfold line_entries. simpl. set_solver.
Qed.

Lemma parse_file_appended old item :
  strings.TrimSpace item = item → item ≠ "" → one_line item = true →
  parse_file (appended old item) = {[strings.ToLower item]} ∪ parse_file old.
Proof.
  intros Ht Hne Hl. unfold appended. destruct (0 <? String.length old)%nat eqn:E.
  - rewrite app_assoc. change (lf +:+ item) with (String strings.LF item).
    rewrite !parse_file_lines, Split_app, line_entries_app, (Split_one_line item) by done.
    rewrite line_entries_single by done. set_solver.
  - apply Nat.ltb_ge in E. rewrite (length_zero old) by lia.
    change ("" +:+ item) with item.
    rewrite parse_file_empty, parse_file_lines, Split_one_line, line_entries_single by done.
    set_solver.
Qed.

Lemma Values_perm s o : gq.Values s o ≡ₚ elements s.
Proof. apply gq.arrange_perm. Qed.

Lemma elem_of_Values x s o : x ∈ gq.Values s o ↔ x ∈ s.
Proof. by rewrite Values_perm, elem_of_elements. Qed.

Lemma Values_set s o : list_to_set (gq.Values s o) = s.
Proof. apply set_eq. intros x. by rewrite elem_of_list_to_set, elem_of_Values. Qed.

Lemma parse_file_Join lines :
  Forall normalized lines → Forall (λ l, one_line l = true) lines →
  parse_file (strings.Join lines lf) = list_to_set lines.
Proof.
  intros Hn Hl. destruct lines as [|l lines]; [apply parse_file_empty|].
  by rewrite parse_file_lines, Split_Join, line_entries_normalized.
Qed.

(** A successful rewrite leaves a file that reads as the set. *)
Lemma rewriteFile_synced fi fs e fs' :
  all_normalized fi → all_one_line fi →
  rewriteFile fi fs e = (fs', None) → disk_entries fi fs' = Some (items fi).
Proof.
  intros Hn Hl ->%rewriteFile_ok. unfold disk_entries.
  rewrite lookup_insert_eq. simpl. f_equal.
  rewrite parse_file_Join, Values_set; [done|..];
    apply Forall_forall; intros x ?%elem_of_Values; auto.
Qed.

(** A successful append to a file that read as the set leaves a file that
    reads as the set with the new entry. *)
Lemma appendToFile_synced fi item fs e fs' s :
  strings.TrimSpace item = item → item ≠ "" → one_line item = true →
  disk_entries fi fs = Some s →
  appendToFile fi item fs e = (fs', None) →
  disk_entries fi fs' = Some ({[strings.ToLower item]} ∪ s).
Proof.
  intros Ht Hne Hl Hd ->%appendToFile_ok. unfold disk_entries in *.
  rewrite lookup_insert_eq. simpl.
  destruct (fs !! path fi) as [old|]; [|done]. simpl in *.
  injection Hd as <-. by rewrite parse_file_appended.
Qed.

(** A store that [New] returned is in step with its file. *)
Lemma New_synced p fs e fi fs' :
  New p fs e = (inl fi, fs') → disk_entries fi fs' = Some (items fi).
Proof.
  intros (<- & content & Hp & ->)%New_inl. unfold disk_entries. by rewrite Hp.
Qed.

(** * The claims *)

Lemma fresh_store_New : New entries_txt ∅ calm = (inl fresh_store, fresh_disk).
Proof. by apply New_missing. Qed.

Lemma fresh_store_reachable : reachable fresh_store fresh_disk.
Proof. exact (reachable_New _ _ _ _ _ fresh_store_New). Defined.

Lemma fresh_store_reachable_one_line : reachable_one_line fresh_store fresh_disk.
Proof. exact (one_line_New _ _ _ _ _ fresh_store_New). Defined.

(** ** C1 *)

(** What [Add] does with an item of two lines on the fresh store: the
    set holds one entry, the file reads as two. *)
Example Add_two_lines :
  Add fresh_store two_lines fresh_disk calm
  = ({| path := entries_txt; items := {[two_lines]} |}, {[entries_txt := two_lines]}, None)
  ∧ parse_file two_lines = {["a"; "b"]}.
Proof. split; vm_compute; reflexivity. Qed.

(** C1 as stated does not hold: it is not so that after every call of
    [Add] or [Remove] that returns success, in every state the package can
    be in, the backing file reads as exactly the set in memory. On the
    store that [New] returns for a path without file, [Add "a\nb"] returns
    success, keeps the item as one entry and writes it as two lines, which
    read as the entries [a] and [b] ([Add_two_lines]). *)
Lemma C1_two_lines_not_in_sync :
  ¬ (∀ fi fs c e fi' fs',
       reachable fi fs →
       run c fi fs e = (fi', fs', None) →
       disk_entries fi' fs' = Some (items fi')).
Proof.
  intros H.
  specialize (H fresh_store fresh_disk (CallAdd two_lines) calm _ _
                fresh_store_reachable (proj1 Add_two_lines)).
  apply (f_equal (fmap elements)) in H. vm_compute in H. discriminate H.
Qed.

(** A second way out of step, without any line feed: an [Add] whose
    append failed leaves an entry that is not in the file, and a later
    [Add] that succeeds does not bring it there, since the file is only
    appended to. *)
Example Add_after_failed_append :
  ∃ fi1 fs1 fi2 fs2 err,
    Add fresh_store "foo" fresh_disk no_append = (fi1, fs1, Some err) ∧
    Add fi1 "bar" fs1 calm = (fi2, fs2, None) ∧
    items fi2 = {["foo"; "bar"]} ∧ disk_entries fi2 fs2 = Some {["bar"]}.
Proof.
  eexists _, _, _, _, _. split; [vm_compute; reflexivity|].
  split; [vm_compute; reflexivity|]. split; vm_compute; reflexivity.
Qed.

(** [Remove] does not take its deletion back either when the rewrite
    fails: the entry is gone from the set and still in the file. *)
Example Remove_with_failed_rewrite :
  Remove foo_store "foo" foo_disk no_rewrite
  = (fresh_store, foo_disk, Some (PathError EACCES)).
Proof. vm_compute. reflexivity. Qed.

(** C1, amended. In every state that the package reaches when no [Add]
    was given an item with a line feed inside: a [Remove] that returns
    success leaves a file that reads as exactly the set in memory; so does
    an [Add] that returns success, of an item without line feed inside,
    when the file read as the set in memory before the call. *)
Theorem C1_sync_after_success fi fs c e fi' fs' :
  reachable_one_line fi fs →
  match c with
  | CallAdd item =>
      one_line (strings.TrimSpace item) = true ∧ disk_entries fi fs = Some (items fi)
  | CallRemove _ => True
  end →
  run c fi fs e = (fi', fs', None) →
  disk_entries fi' fs' = Some (items fi').
Proof.
  intros Hr Hc. destruct c as [item|item]; simpl.
  - destruct Hc as [Hl Hd].
    destruct (Add_cases fi item fs e)
      as [[_ ->]|[(_ & _ & ->)|(Hne & _ & fs1 & r & Ha & ->)]]; [done..|].
    intros [= <- <- ->].
    eapply (appendToFile_synced _ _ _ _ _ (items fi)) in Ha;
      [done|apply TrimSpace_idem|done..].
  - destruct (Remove_cases fi item fs e)
      as [[_ ->]|[(_ & _ & ->)|(Hne & Hx & fs1 & r & Hw & ->)]]; [done..|].
    intros [= <- <- ->].
    apply rewriteFile_synced in Hw; [done|..]; intros x Hin; simpl in Hin.
    + apply (reachable_normalized fi fs); [by apply reachable_one_line_reachable|set_solver].
    + apply (reachable_one_line_entries fi fs Hr). set_solver.
Qed.

Lemma C1_sync_after_success_witness :
  disk_entries foo_store foo_disk = Some (items foo_store).
Proof.
  apply (C1_sync_after_success fresh_store fresh_disk (CallAdd " Foo ") calm).
  - exact fresh_store_reachable_one_line.
  - split; vm_compute; reflexivity.
  - vm_compute; reflexivity.
Defined.

(** ** C2 *)

Lemma Add_succeeded fi item fs e fi' fs' :
  Add fi item fs e = (fi', fs', None) →
  strings.TrimSpace item ≠ "" ∧
  (strings.ToLower (strings.TrimSpace item) ∉ items fi) ∧
  fi' = set_items fi ({[strings.ToLower (strings.TrimSpace item)]} ∪ items fi) ∧
  appendToFile fi' (strings.TrimSpace item) fs e = (fs', None).
Proof.
  destruct (Add_cases fi item fs e)
    as [[_ ->]|[(_ & _ & ->)|(Hne & Hx & fs1 & r & Ha & ->)]]; [done..|].
  by intros [= <- <- ->].
Qed.

Lemma same_normal_form_nonempty s t :
  strings.TrimSpace s ≠ "" →
  strings.ToLower (strings.TrimSpace t) = strings.ToLower (strings.TrimSpace s) →
  strings.TrimSpace t ≠ "".
Proof. intros Hs Heq Ht. rewrite Ht in Heq. symmetry in Heq. by apply ToLower_empty in Heq. Qed.

(** C2. For every string [s] whose trimmed form is not empty: when
    [Add s] returns success, [Contains] is true of [s] and of every string
    [t] whose trimmed, lowercased form is that of [s]. *)
Theorem C2_Contains_after_Add fi s fs e fi' fs' :
  strings.TrimSpace s ≠ "" →
  Add fi s fs e = (fi', fs', None) →
  Contains fi' s = true ∧
  ∀ t, strings.ToLower (strings.TrimSpace t) = strings.ToLower (strings.TrimSpace s) →
       Contains fi' t = true.
Proof.
  intros Hne (_ & _ & -> & _)%Add_succeeded.
  assert (∀ t, strings.ToLower (strings.TrimSpace t) = strings.ToLower (strings.TrimSpace s) →
               Contains (set_items fi ({[strings.ToLower (strings.TrimSpace s)]} ∪ items fi)) t = true)
    as H; [|by split; [apply H|]].
  intros t Heq. apply contains_spec. split; [by eapply same_normal_form_nonempty|].
  simpl. rewrite Heq. set_solver.
Qed.

Lemma C2_Contains_after_Add_witness :
  Contains foo_store " Foo " = true ∧
  ∀ t, strings.ToLower (strings.TrimSpace t) = strings.ToLower (strings.TrimSpace " Foo ") →
       Contains foo_store t = true.
Proof.
  apply (C2_Contains_after_Add fresh_store " Foo " fresh_disk calm foo_store foo_disk).
  - vm_compute. discriminate.
  - vm_compute. reflexivity.
Defined.

(** ** C3 *)

Lemma New_error p fs e err fs' :
  New p fs e = (inr err, fs') → ∃ cause, err = PathError cause.
Proof.
  unfold New, load.
  destruct (ReadFile_cases p fs (on_ReadFile e))
    as [(data & _ & _ & Hr)|[(_ & _ & Hr)|(cause & _ & Hr)]]; simpl; rewrite Hr; simpl.
  - done.
  - unfold os.WriteFile. destruct (on_WriteFile e) as [[]|]; intros [= <- <-] || intros [=]; eauto.
  - intros [= <- <-]. eauto.
Qed.

Lemma validation_error_not_PathError err :
  validation_error err → ∀ cause, err ≠ PathError cause.
Proof. intros [[-> | ->]|[-> | ->]] cause; done. Qed.

(** C3. When [Add], [Remove] or [New] returns a validation error, the
    set in memory and the file system are as they were before the call;
    [Add] and [Remove] of an input that trims to nothing return
    [EmptyEntry], [Add] of an entry of the set returns [AlreadyExists],
    and [Remove] of an entry that is not in the set returns [NotFound],
    each without any change. *)
Theorem C3_validation_errors_change_nothing fi item fs e err :
  validation_error err →
  (∀ fi' fs', Add fi item fs e = (fi', fs', Some err) → fi' = fi ∧ fs' = fs) ∧
  (∀ fi' fs', Remove fi item fs e = (fi', fs', Some err) → fi' = fi ∧ fs' = fs) ∧
  (∀ p fs', New p fs e = (inr err, fs') → fs' = fs) ∧
  (strings.TrimSpace item = "" →
   ∃ e1 e2, EmptyEntry e1 ∧ EmptyEntry e2 ∧
     Add fi item fs e = (fi, fs, Some e1) ∧ Remove fi item fs e = (fi, fs, Some e2)) ∧
  (strings.TrimSpace item ≠ "" →
   strings.ToLower (strings.TrimSpace item) ∈ items fi →
   Add fi item fs e = (fi, fs, Some AlreadyExists)) ∧
  (strings.TrimSpace item ≠ "" →
   (strings.ToLower (strings.TrimSpace item) ∉ items fi) →
   Remove fi item fs e = (fi, fs, Some NotFound)).
Proof.
  intros Hv.
  pose proof (Add_cases fi item fs e) as HA. pose proof (Remove_cases fi item fs e) as HR.
  simpl in HA, HR. split_and!.
  - intros fi' fs'.
    destruct HA as [[_ ->]|[(_ & _ & ->)|(_ & _ & fs1 & r & Ha & ->)]];
      intros [= <- <- E]; try done.
    subst r. apply appendToFile_error in Ha as [cause ->].
    by destruct (validation_error_not_PathError _ Hv cause).
  - intros fi' fs'.
    destruct HR as [[_ ->]|[(_ & _ & ->)|(_ & _ & fs1 & r & Hw & ->)]];
      intros [= <- <- E]; try done.
    subst r. apply rewriteFile_error in Hw as [cause ->].
    by destruct (validation_error_not_PathError _ Hv cause).
  - intros p fs' [cause ->]%New_error.
    by destruct (validation_error_not_PathError _ Hv cause).
  - intros Ht.
    destruct HA as [[_ ->]|[(? & _)|(? & _)]]; [|done..].
    destruct HR as [[_ ->]|[(? & _)|(? & _)]]; [|done..].
    eexists _, _. split; [by left|]. split; [by right|]. done.
  - intros Hne Hx.
    destruct HA as [[? _]|[(_ & _ & ->)|(_ & ? & _)]]; done.
  - intros Hne Hx.
    destruct HR as [[? _]|[(_ & _ & ->)|(_ & ? & _)]]; done.
Qed.

Lemma C3_validation_errors_change_nothing_witness :
  Remove foo_store "bar" foo_disk calm = (foo_store, foo_disk, Some NotFound).
Proof.
  apply (C3_validation_errors_change_nothing foo_store "bar" foo_disk calm NotFound).
  - right; right; reflexivity.
  - vm_compute. discriminate.
  - refine (bool_decide_unpack _ _). vm_compute. exact I.
Defined.

(** ** C4 *)

(** C4. [New] over an existing file returns no other store than the one
    whose set is [parse_file] of the content, and returns it when the
    file can be read: the content with every ["\r\n"] made ["\n"], split
    into lines, each line trimmed, the blank ones dropped, the others
    lowercased and collected in a set; the file is left as it is. Over the
    content ["Foo\nBar\n\nBAZ"] the set is {foo, bar, baz}. *)
Theorem C4_New_reads_the_file p fs e content :
  fs !! p = Some content →
  (∀ fi fs', New p fs e = (inl fi, fs') →
             fi = {| path := p; items := parse_file content |} ∧ fs' = fs) ∧
  (on_ReadFile e = None →
   New p fs e = (inl {| path := p; items := parse_file content |}, fs)) ∧
  (content = "Foo" +:+ lf +:+ "Bar" +:+ lf +:+ lf +:+ "BAZ" →
   parse_file content = {["foo"; "bar"; "baz"]}).
Proof.
  intros Hp. split_and!.
  - intros fi fs'. destruct (on_ReadFile e) as [cause|] eqn:He.
    + unfold New, load, os.ReadFile. simpl. by rewrite He.
    + rewrite (New_existing _ _ _ _ Hp He). by intros [= <- <-].
  - by apply New_existing.
  - intros ->. vm_compute. reflexivity.
Qed.

(** Line ends of both kinds, blank lines and the same entry twice. *)
Example parse_file_mixed :
  parse_file ("Foo" +:+ crlf +:+ " foo " +:+ lf +:+ "  " +:+ crlf +:+ "Bar" +:+ lf)
  = {["foo"; "bar"]}.
Proof. vm_compute. reflexivity. Qed.

Lemma C4_New_reads_the_file_witness :
  New entries_txt {[entries_txt := "Foo" +:+ lf +:+ "Bar" +:+ lf +:+ lf +:+ "BAZ"]} calm
  = (inl {| path := entries_txt; items := {["foo"; "bar"; "baz"]} |},
     {[entries_txt := "Foo" +:+ lf +:+ "Bar" +:+ lf +:+ lf +:+ "BAZ"]}).
Proof.
  destruct (C4_New_reads_the_file entries_txt
              {[entries_txt := "Foo" +:+ lf +:+ "Bar" +:+ lf +:+ lf +:+ "BAZ"]} calm
              ("Foo" +:+ lf +:+ "Bar" +:+ lf +:+ lf +:+ "BAZ")) as (_ & HN & Hset).
  - vm_compute. reflexivity.
  - rewrite HN, Hset; reflexivity.
Defined.

(** ** C5 *)

Lemma ends_with_LF_cons c t : t ≠ "" → ends_with_LF (String c t) = ends_with_LF t.
Proof. by destruct t. Qed.

Lemma ends_with_LF_app a b : b ≠ "" → ends_with_LF (a +:+ b) = ends_with_LF b.
Proof.
  intros Hb. induction a as [|c a IH]; [done|].
  rewrite app_cons, ends_with_LF_cons, IH; [done|].
  destruct a; [done|by rewrite app_cons].
Qed.

Lemma ends_with_LF_snoc s :
  ends_with_LF s = true → ∃ s0, s = s0 +:+ String strings.LF "".
Proof.
  induction s as [|c t IH]; [done|]. destruct t as [|d t].
  - simpl. intros ->%Ascii.eqb_eq. by exists "".
  - rewrite ends_with_LF_cons by done. intros [s0 ->]%IH. by exists (String c s0).
Qed.

Lemma trimmed_no_LF_end l : strings.TrimSpace l = l → ends_with_LF l = false.
Proof.
  intros Ht. apply not_true_is_false. intros [s0 ->]%ends_with_LF_snoc.
  rewrite TrimSpace_snoc in Ht by done.
  pose proof (TrimSpace_length s0) as Hlen. rewrite Ht, app_length in Hlen.
  simpl in Hlen. lia.
Qed.

Lemma Join_nonempty e rest : e ≠ "" → strings.Join (e :: rest) lf ≠ "".
Proof. destruct e; [done|]. by destruct rest. Qed.

Lemma Join_no_LF_end lines :
  Forall normalized lines → ends_with_LF (strings.Join lines lf) = false.
Proof.
  induction lines as [|e [|e' rest] IH]; [done| |]; intros H;
    inversion H as [|?? He Hrest]; subst.
  - apply trimmed_no_LF_end, He.
  - change (strings.Join (e :: e' :: rest) lf)
      with (e +:+ String strings.LF (strings.Join (e' :: rest) lf)).
    rewrite ends_with_LF_app by done. rewrite ends_with_LF_cons; [by apply IH|].
    apply Join_nonempty. inversion Hrest as [|?? [? _] _]. done.
Qed.

(** C5. For every string [s] whose trimmed, lowercased form is an entry
    of the store: [Remove s] takes that form out of the set in memory and
    calls [os.WriteFile] on the backing file with the remaining entries,
    each once and in its normal form, joined by line feeds, with no line
    feed at the end; it returns what that call returns, so that, when the
    file can be written, [Remove s] returns success and this text is the
    content of the file. *)
Theorem C5_Remove_rewrites_the_file fi fs s e :
  reachable fi fs →
  strings.ToLower (strings.TrimSpace s) ∈ items fi →
  let rest := items fi ∖ {[strings.ToLower (strings.TrimSpace s)]} in
  let lines := gq.Values rest (range_order e) in
  let content := strings.Join lines lf in
  Remove fi s fs e =
    (set_items fi rest,
     (os.WriteFile (path fi) content fs (on_WriteFile e)).1,
     (os.WriteFile (path fi) content fs (on_WriteFile e)).2) ∧
  (on_WriteFile e = None →
   Remove fi s fs e = (set_items fi rest, <[path fi := content]> fs, None)) ∧
  lines ≡ₚ elements rest ∧
  Forall normalized lines ∧
  ends_with_LF content = false.
Proof.
  intros Hr Hx rest lines content.
  pose proof (reachable_normalized _ _ Hr) as Hn.
  assert (Forall normalized lines) as Hlines.
  { apply Forall_forall. intros y Hy%elem_of_Values. apply Hn. set_solver. }
  assert (Remove fi s fs e =
            (set_items fi rest,
             (os.WriteFile (path fi) content fs (on_WriteFile e)).1,
             (os.WriteFile (path fi) content fs (on_WriteFile e)).2)) as HR.
  { destruct (Remove_cases fi s fs e)
      as [[Hs _]|[(_ & ? & _)|(_ & _ & fs1 & r & Hf & ->)]]; [|done|].
    - rewrite Hs in Hx. destruct (Hn _ Hx) as [? _]. done.
    - unfold rewriteFile in Hf. simpl in Hf. fold rest lines content in Hf.
      by rewrite Hf. }
  split_and!; [done| |apply Values_perm|done|by apply Join_no_LF_end].
  intros Hw. rewrite HR. unfold os.WriteFile. by rewrite Hw.
Qed.

Lemma C5_Remove_rewrites_the_file_witness :
  Remove foo_store " FOO" foo_disk calm = (fresh_store, fresh_disk, None).
Proof.
  refine (eq_trans
            (proj1 (proj2 (C5_Remove_rewrites_the_file foo_store foo_disk " FOO" calm _ _))
               eq_refl) _).
  - refine (reachable_run (CallAdd " Foo ") _ _ calm _ _ None fresh_store_reachable _).
    vm_compute. reflexivity.
  - refine (bool_decide_unpack _ _). vm_compute. exact I.
  - vm_compute. reflexivity.
Defined.

(** ** C6 *)

(** C6. When [Add s] returned success, the next call [Add s'], for every
    [s'] whose trimmed, lowercased form is that of [s], returns
    [AlreadyExists] and changes neither the store nor the file system. *)
Theorem C6_second_Add_already_exists fi s fs e fi1 fs1 s' e' :
  Add fi s fs e = (fi1, fs1, None) →
  strings.ToLower (strings.TrimSpace s') = strings.ToLower (strings.TrimSpace s) →
  Add fi1 s' fs1 e' = (fi1, fs1, Some AlreadyExists).
Proof.
  intros (Hne & _ & -> & _)%Add_succeeded Heq.
  destruct (Add_cases (set_items fi ({[strings.ToLower (strings.TrimSpace s)]} ∪ items fi))
              s' fs1 e') as [[Hs' _]|[(_ & _ & ->)|(_ & Hx & _)]]; [|done|].
  - by destruct (same_normal_form_nonempty s s' Hne Heq).
  - destruct Hx. simpl. rewrite Heq. set_solver.
Qed.

Lemma C6_second_Add_already_exists_witness :
  Add foo_store "FOO  " foo_disk no_append = (foo_store, foo_disk, Some AlreadyExists).
Proof.
  apply (C6_second_Add_already_exists fresh_store " Foo " fresh_disk calm).
  - vm_compute. reflexivity.
  - vm_compute. reflexivity.
Defined.

(** ** C7 *)

(** C7. When the file of the path does not exist and can be created,
    [New] returns a store with the empty set and leaves an empty file at
    the path. When the read fails for another cause than the absence of
    the file, [New] returns that error and no store, and the file system
    is as it was. *)
Theorem C7_New_without_file p fs e :
  (os.ReadFile p fs (on_ReadFile e) = inr ErrNotExist →
   on_WriteFile e = None →
   New p fs e = (inl {| path := p; items := ∅ |}, <[p := ""]> fs) ∧
   fs !! p = None ∧ <[p := ""]> fs !! p = Some "") ∧
  (∀ err, os.ReadFile p fs (on_ReadFile e) = inr err →
          os.IsNotExist err = false →
          New p fs e = (inr err, fs)).
Proof.
  split.
  - intros Hr Hw. split; [by apply New_missing|]. split; [|apply lookup_insert_eq].
    destruct (ReadFile_cases p fs (on_ReadFile e))
      as [(data & _ & _ & Hr')|[(Hp & _ & _)|(cause & _ & Hr')]]; [|done|];
      rewrite Hr' in Hr; done.
  - intros err Hr Hne. unfold New, load. simpl. by rewrite Hr, Hne.
Qed.

Lemma C7_New_without_file_witness :
  New entries_txt ∅ calm = (inl fresh_store, fresh_disk) ∧
  New entries_txt foo_disk no_read = (inr (PathError EACCES), foo_disk).
Proof.
  split.
  - refine (eq_trans (proj1 (proj1 (C7_New_without_file entries_txt ∅ calm) _ _)) _);
      reflexivity.
  - apply (proj2 (C7_New_without_file entries_txt foo_disk no_read)); reflexivity.
Defined.

(** ** C8 *)

Lemma parse_file_appended_elem old item :
  strings.TrimSpace item = item → item ≠ "" → one_line item = true →
  strings.ToLower item ∈ parse_file (appended old item).
Proof. intros. rewrite parse_file_appended by done. set_solver. Qed.

(** C8. When [Add "X"] returned success on a store, the backing file
    ends with the line ["X"], in the case of the caller, and [New] over
    the path of the store and the file system that [Add] left returns no
    other store than one for which [Contains "x"] is true, and returns it
    when the file can be read. *)
Theorem C8_reopen_after_Add fi fs e fi' fs' e' :
  Add fi "X" fs e = (fi', fs', None) →
  (∃ old, fs' !! path fi' = Some (appended old "X")) ∧
  (∀ fi2 fs2, New (path fi') fs' e' = (inl fi2, fs2) → Contains fi2 "x" = true) ∧
  (on_ReadFile e' = None →
   ∃ fi2, New (path fi') fs' e' = (inl fi2, fs') ∧ Contains fi2 "x" = true).
Proof.
  intros (_ & _ & -> & Ha)%Add_succeeded. simpl in *.
  apply appendToFile_ok in Ha. simpl in Ha.
  change (strings.TrimSpace "X") with "X" in Ha.
  set (old := default "" (fs !! path fi)) in Ha.
  assert (fs' !! path fi = Some (appended old "X")) as Hp
    by (by rewrite Ha, lookup_insert_eq).
  assert (Contains {| path := path fi; items := parse_file (appended old "X") |} "x" = true)
    as HC.
  { apply contains_spec. split; [done|]. simpl.
    by apply (parse_file_appended_elem old "X"). }
  split_and!; [by exists old| |].
  - intros fi2 fs2. destruct (on_ReadFile e') as [cause|] eqn:He'.
    + unfold New, load, os.ReadFile. simpl. by rewrite He'.
    + rewrite (New_existing _ _ _ _ Hp He'). by intros [= <- <-].
  - intros He'. eexists. split; [by apply New_existing|done].
Qed.

Lemma C8_reopen_after_Add_witness :
  ∃ fi2,
    New entries_txt {[entries_txt := "Foo" +:+ lf +:+ "X"]} calm
      = (inl fi2, {[entries_txt := "Foo" +:+ lf +:+ "X"]}) ∧
    Contains fi2 "x" = true.
Proof.
  refine (proj2 (proj2 (C8_reopen_after_Add foo_store foo_disk calm
                          {| path := entries_txt; items := {["x"; "foo"]} |}
                          {[entries_txt := "Foo" +:+ lf +:+ "X"]} calm _)) eq_refl).
  vm_compute. reflexivity.
Defined.

(** ** C9 *)

(** C9. When [Add] has put the normal form of the item in the set and
    the append to the file fails, [Add] returns the error of the append
    and the entry stays in the set, so that [Contains] is true of the
    item; when the failure was at the opening of the file, the file
    system has not changed. *)
Theorem C9_failed_append_keeps_the_entry fi item fs e fs' err :
  let x := strings.ToLower (strings.TrimSpace item) in
  let fi' := set_items fi (gq.Add (items fi) x) in
  strings.TrimSpace item ≠ "" →
  contains fi (strings.TrimSpace item) = false →
  appendToFile fi' (strings.TrimSpace item) fs e = (fs', Some err) →
  Add fi item fs e = (fi', fs', Some err) ∧
  IOFailure err ∧
  (x ∉ items fi) ∧ x ∈ items fi' ∧
  Contains fi' item = true ∧
  (is_Some (on_OpenFile e) → fs' = fs).
Proof.
  intros x fi' Hne Hc Ha.
  assert (x ∈ items fi') as Hx by (simpl; unfold gq.Add; set_solver).
  split_and!; [| | |done| |].
  - unfold Add. rewrite eqb_empty, bool_decide_eq_false_2, Hc by done.
    fold x fi'. by rewrite Ha.
  - apply appendToFile_error in Ha as [cause ->]. right. eauto.
  - intros Hin. apply not_true_iff_false in Hc. apply Hc, contains_spec.
    by rewrite TrimSpace_idem.
  - by apply contains_spec.
  - intros [cause Ho]. rewrite (appendToFile_open_fault _ _ _ _ _ Ho) in Ha.
    by injection Ha as <- _.
Qed.

Lemma C9_failed_append_keeps_the_entry_witness :
  Add fresh_store " Foo " fresh_disk no_append
    = (foo_store, fresh_disk, Some (PathError EACCES)) ∧
  Contains foo_store " Foo " = true ∧
  disk_entries foo_store fresh_disk = Some ∅.
Proof.
  destruct (C9_failed_append_keeps_the_entry fresh_store " Foo " fresh_disk no_append
              fresh_disk (PathError EACCES)) as (HA & _ & _ & _ & HC & _).
  - vm_compute. discriminate.
  - vm_compute. reflexivity.
  - vm_compute. reflexivity.
  - split; [exact HA|]. split; [exact HC|]. vm_compute. reflexivity.
Defined.

(** ** C10 *)

Lemma Add_ok fi item fs e :
  strings.TrimSpace item ≠ "" →
  strings.ToLower (strings.TrimSpace item) ∉ items fi →
  on_OpenFile e = None → on_newline e = None → on_item e = None →
  Add fi item fs e =
    (set_items fi ({[strings.ToLower (strings.TrimSpace item)]} ∪ items fi),
     <[path fi := appended (default "" (fs !! path fi)) (strings.TrimSpace item)]> fs,
     None).
Proof.
  intros Hne Hx Ho Hn Hi.
  destruct (Add_cases fi item fs e)
    as [[? _]|[(_ & ? & _)|(_ & _ & fs1 & r & Ha & ->)]]; [done..|].
  destruct r as [err|].
  - exfalso. revert Ha.
    unfold appendToFile, os.OpenFile, os.Stat, os.WriteString. rewrite Ho, Hn, Hi.
    simpl. destruct (fs !! path fi) as [c|] eqn:Hp; simpl.
    + rewrite !Hp. simpl. destruct (0 <? String.length c)%nat; simpl; intros [=].
    + rewrite lookup_insert_eq. simpl. intros [=].
  - by rewrite (appendToFile_ok _ _ _ _ _ Ha).
Qed.

(** C10. [Add] takes an item with a line feed inside: for the item
    ["a\nb"], which trimming and lowercasing leave as it is, on a store
    that does not hold it and when the file can be appended to, [Add]
    returns success, puts the whole string in the set as one entry and
    appends it to the file as it is, where it makes two lines. *)
Theorem C10_Add_takes_a_line_feed fi fs e :
  two_lines ∉ items fi →
  on_OpenFile e = None → on_newline e = None → on_item e = None →
  Add fi two_lines fs e =
    (set_items fi ({[two_lines]} ∪ items fi),
     <[path fi := appended (default "" (fs !! path fi)) two_lines]> fs,
     None) ∧
  one_line two_lines = false ∧
  strings.Split two_lines lf = ["a"; "b"].
Proof.
  intros Hx Ho Hn Hi. split; [|by split].
  by apply (Add_ok fi two_lines fs e).
Qed.

Lemma C10_Add_takes_a_line_feed_witness :
  Add fresh_store two_lines fresh_disk calm
    = ({| path := entries_txt; items := {[two_lines]} |}, {[entries_txt := two_lines]}, None).
Proof.
  refine (eq_trans (proj1 (C10_Add_takes_a_line_feed fresh_store fresh_disk calm _ _ _ _)) _).
  - refine (bool_decide_unpack _ _). vm_compute. exact I.
  - reflexivity.
  - reflexivity.
  - reflexivity.
  - vm_compute. reflexivity.
Defined.

(** * Further properties of the package *)

Lemma foo_store_Add :
  Add fresh_store " Foo " fresh_disk calm = (foo_store, foo_disk, None).
Proof. vm_compute. reflexivity. Qed.

Lemma foo_store_reachable : reachable foo_store foo_disk.
Proof.
  exact (reachable_run (CallAdd " Foo ") _ _ calm _ _ None
           fresh_store_reachable foo_store_Add).
Defined.

Lemma foo_store_reachable_one_line : reachable_one_line foo_store foo_disk.
Proof.
  refine (one_line_Add " Foo " _ _ calm _ _ None
            fresh_store_reachable_one_line _ foo_store_Add).
  vm_compute. reflexivity.
Defined.

Lemma not_in_reachable_empty fi fs : reachable fi fs → "" ∉ items fi.
Proof. intros Hr Hin. by destruct (reachable_normalized _ _ Hr _ Hin) as [? _]. Qed.

(** ** The entries of a store *)

(** X1. Every entry of every store that the package can reach is not
    empty, has no white space at its ends and is in lower case: [load],
    [Add] and [Remove] keep this. *)
Theorem X1_entries_are_normalized fi fs x :
  reachable fi fs → x ∈ items fi →
  x ≠ "" ∧ strings.TrimSpace x = x ∧ strings.ToLower x = x.
Proof. intros Hr Hx. exact (reachable_normalized fi fs Hr x Hx). Qed.

Lemma X1_entries_are_normalized_witness :
  "foo" ≠ "" ∧ strings.TrimSpace "foo" = "foo" ∧ strings.ToLower "foo" = "foo".
Proof.
  apply (X1_entries_are_normalized foo_store foo_disk "foo").
  - exact foo_store_reachable.
  - refine (bool_decide_unpack _ _). vm_compute. exact I.
Defined.

(** ** [Contains] *)

Lemma contains_by_normal_form fi s t :
  strings.ToLower (strings.TrimSpace s) = strings.ToLower (strings.TrimSpace t) →
  contains fi s = contains fi t.
Proof.
  intros Heq. apply eq_true_iff_eq. rewrite !contains_spec, Heq.
  split; intros [Hne ?]; (split; [|done]); intros He; apply Hne.
  - rewrite He in Heq. by apply ToLower_empty in Heq.
  - rewrite He in Heq. symmetry in Heq. by apply ToLower_empty in Heq.
Qed.

(** X2. [Contains] answers by the trimmed, lowercased form alone: two
    strings with the same form get the same answer from every store, and
    a string that trims to nothing gets the answer false. *)
Theorem X2_Contains_by_normal_form fi s t :
  strings.ToLower (strings.TrimSpace s) = strings.ToLower (strings.TrimSpace t) →
  Contains fi s = Contains fi t ∧
  (strings.TrimSpace s = "" → Contains fi s = false ∧ Contains fi t = false).
Proof.
  intros Heq. split; [by apply contains_by_normal_form|].
  intros Hs. unfold Contains. rewrite <-(contains_by_normal_form fi s t Heq).
  assert (contains fi s = false) as H; [|by rewrite H].
  apply not_true_is_false. rewrite contains_spec. tauto.
Qed.

Lemma X2_Contains_by_normal_form_witness :
  Contains foo_store "  FOO" = Contains foo_store "foo " ∧
  (strings.TrimSpace "  FOO" = "" →
   Contains foo_store "  FOO" = false ∧ Contains foo_store "foo " = false).
Proof.
  apply (X2_Contains_by_normal_form foo_store "  FOO" "foo ").
  vm_compute. reflexivity.
Defined.

(** ** [Items] *)

(** X3. [Items] of a store that the package can reach yields every entry
    once and nothing else; [Contains] is true of everything [Items]
    yields, and true of a string exactly when [Items] yields its trimmed,
    lowercased form. *)
Theorem X3_Items_and_Contains fi fs e :
  reachable fi fs →
  NoDup (Items fi e) ∧
  List.length (Items fi e) = size (items fi) ∧
  (∀ x, x ∈ Items fi e ↔ x ∈ items fi) ∧
  (∀ x, x ∈ Items fi e → Contains fi x = true) ∧
  (∀ s, Contains fi s = true ↔ strings.ToLower (strings.TrimSpace s) ∈ Items fi e).
Proof.
  intros Hr. pose proof (Values_perm (items fi) (range_order e)) as Hp.
  fold (Items fi e) in Hp. split_and!.
  - rewrite Hp. apply NoDup_elements.
  - by rewrite Hp.
  - intros x. apply elem_of_Values.
  - intros x Hx%elem_of_Values.
    destruct (reachable_normalized _ _ Hr _ Hx) as (Hne & Ht & Hl).
    apply contains_spec. by rewrite Ht, Hl.
  - intros s. unfold Contains. rewrite contains_spec. unfold Items.
    rewrite elem_of_Values. split; [tauto|]. intros Hx. split; [|done].
    intros He. rewrite He in Hx. by apply (not_in_reachable_empty _ _ Hr).
Qed.

Lemma X3_Items_and_Contains_witness :
  Items foo_store calm = ["foo"] ∧ Contains foo_store "foo" = true.
Proof.
  split; [vm_compute; reflexivity|].
  apply (proj1 (proj2 (proj2 (proj2
           (X3_Items_and_Contains foo_store foo_disk calm foo_store_reachable))))).
  refine (bool_decide_unpack _ _). vm_compute. exact I.
Defined.

(** ** How the calls change what [Contains] answers *)

Lemma Remove_succeeded fi item fs e fi' fs' :
  Remove fi item fs e = (fi', fs', None) →
  strings.TrimSpace item ≠ "" ∧
  strings.ToLower (strings.TrimSpace item) ∈ items fi ∧
  fi' = set_items fi (items fi ∖ {[strings.ToLower (strings.TrimSpace item)]}) ∧
  rewriteFile fi' fs e = (fs', None).
Proof.
  destruct (Remove_cases fi item fs e)
    as [[_ ->]|[(_ & _ & ->)|(Hne & Hx & fs1 & r & Hw & ->)]]; [done..|].
  by intros [= <- <- ->].
Qed.

Lemma contains_same_membership fi fi' u :
  (strings.ToLower (strings.TrimSpace u) ∈ items fi' ↔
   strings.ToLower (strings.TrimSpace u) ∈ items fi) →
  contains fi' u = contains fi u.
Proof. intros H. apply eq_true_iff_eq. by rewrite !contains_spec, H. Qed.

(** X4. A call of [Add] or [Remove], whatever it returns, leaves the
    answer of [Contains] as it was for every string whose trimmed,
    lowercased form is not that of the item of the call. *)
Theorem X4_other_entries_untouched c fi fs e fi' fs' r u :
  run c fi fs e = (fi', fs', r) →
  normal_form u ≠ normal_form (call_item c) →
  Contains fi' u = Contains fi u.
Proof.
  unfold normal_form. intros Hrun Hu. apply contains_same_membership.
  destruct c as [item|item]; simpl in *.
  - apply Add_items in Hrun as [_ [->|[_ ->]]]; set_solver.
  - destruct (Remove_cases fi item fs e)
      as [[_ Hc]|[(_ & _ & Hc)|(_ & _ & fs1 & r1 & _ & Hc)]];
      rewrite Hc in Hrun; injection Hrun as <- <- <-; simpl; set_solver.
Qed.

Lemma X4_other_entries_untouched_witness :
  Contains {| path := entries_txt; items := {["bar"; "foo"]} |} "Foo" = Contains foo_store "Foo".
Proof.
  apply (X4_other_entries_untouched (CallAdd "bar") foo_store foo_disk calm
           {| path := entries_txt; items := {["bar"; "foo"]} |}
           {[entries_txt := "Foo" +:+ lf +:+ "bar"]} None "Foo").
  - vm_compute. reflexivity.
  - vm_compute. discriminate.
Defined.

(** X5. When [Remove s] returned success, [Contains] is false of every
    string with the trimmed, lowercased form of [s], and the next
    [Remove] of such a string returns [NotFound] and changes nothing. *)
Theorem X5_Remove_then_absent fi s fs e fi' fs' t e' :
  Remove fi s fs e = (fi', fs', None) →
  normal_form t = normal_form s →
  Contains fi' t = false ∧
  Remove fi' t fs' e' = (fi', fs', Some NotFound).
Proof.
  unfold normal_form. intros (Hne & _ & -> & _)%Remove_succeeded Heq.
  pose proof (same_normal_form_nonempty s t Hne Heq) as Ht.
  assert (strings.ToLower (strings.TrimSpace t)
            ∉ items (set_items fi (items fi ∖ {[strings.ToLower (strings.TrimSpace s)]})))
    as Hx by (simpl; rewrite Heq; set_solver).
  split; [by apply contains_false|].
  destruct (Remove_cases
              (set_items fi (items fi ∖ {[strings.ToLower (strings.TrimSpace s)]})) t fs' e')
    as [[? _]|[(_ & _ & ->)|(_ & ? & _)]]; done.
Qed.

Lemma X5_Remove_then_absent_witness :
  Contains fresh_store "Foo" = false ∧
  Remove fresh_store "Foo" fresh_disk no_rewrite = (fresh_store, fresh_disk, Some NotFound).
Proof.
  apply (X5_Remove_then_absent foo_store " FOO" foo_disk calm).
  - vm_compute. reflexivity.
  - vm_compute. reflexivity.
Defined.

(** X6. [Remove] undoes [Add] in memory: when [Add s] returned success
    on a store, [Remove] of a string with the same trimmed, lowercased
    form gives back the store as it was before the [Add], and hands to
    [os.WriteFile] the entries of that store; it returns success when the
    file can be written. *)
Theorem X6_Add_then_Remove fi s fs e fi1 fs1 t e' :
  Add fi s fs e = (fi1, fs1, None) →
  normal_form t = normal_form s →
  let content := strings.Join (gq.Values (items fi) (range_order e')) lf in
  Remove fi1 t fs1 e' =
    (fi,
     (os.WriteFile (path fi) content fs1 (on_WriteFile e')).1,
     (os.WriteFile (path fi) content fs1 (on_WriteFile e')).2) ∧
  (on_WriteFile e' = None →
   Remove fi1 t fs1 e' = (fi, <[path fi := content]> fs1, None)).
Proof.
  intros HA Heq content. unfold normal_form in Heq.
  apply Add_succeeded in HA as (Hne & Hx & -> & _).
  pose proof (same_normal_form_nonempty s t Hne Heq) as Ht.
  set (x := strings.ToLower (strings.TrimSpace s)) in *.
  assert (({[x]} ∪ items fi) ∖ {[x]} = items fi) as Hback by set_solver.
  assert (Remove (set_items fi ({[x]} ∪ items fi)) t fs1 e' =
            (fi,
             (os.WriteFile (path fi) content fs1 (on_WriteFile e')).1,
             (os.WriteFile (path fi) content fs1 (on_WriteFile e')).2)) as HR.
  { destruct (Remove_cases (set_items fi ({[x]} ∪ items fi)) t fs1 e')
      as [[? _]|[(_ & Hn & _)|(_ & _ & fs2 & r & Hw & ->)]]; [done| |].
    - destruct Hn. simpl. rewrite Heq. set_solver.
    - revert Hw. simpl. rewrite Heq. fold x.
      unfold rewriteFile. simpl. rewrite Hback. fold content.
      intros ->. simpl. by destruct fi. }
  split; [done|]. intros Hw. rewrite HR. unfold os.WriteFile. by rewrite Hw.
Qed.

Lemma X6_Add_then_Remove_witness :
  Remove foo_store "FOO" foo_disk calm = (fresh_store, fresh_disk, None).
Proof.
  refine (eq_trans
            (proj2 (X6_Add_then_Remove fresh_store " Foo " fresh_disk calm
                      foo_store foo_disk "FOO" calm _ _) eq_refl) _).
  - vm_compute. reflexivity.
  - vm_compute. reflexivity.
  - vm_compute. reflexivity.
Defined.

(** X7. An [Add] that failed on the file system cannot be tried again:
    the entry has stayed in the set, so every later [Add] of a string
    with the same trimmed, lowercased form returns [AlreadyExists] and
    writes nothing. *)
Theorem X7_no_retry_after_failed_append fi item fs e fi' fs' err t e' :
  Add fi item fs e = (fi', fs', Some err) →
  IOFailure err →
  normal_form t = normal_form item →
  Add fi' t fs' e' = (fi', fs', Some AlreadyExists).
Proof.
  unfold normal_form. intros HA Hio Heq.
  destruct (Add_cases fi item fs e)
    as [[_ Hc]|[(_ & _ & Hc)|(Hne & _ & fs1 & r & _ & Hc)]];
    rewrite Hc in HA; injection HA as <- <- Hr.
  - subst err. destruct Hio as [?|[? ?]]; done.
  - subst err. destruct Hio as [?|[? ?]]; done.
  - pose proof (same_normal_form_nonempty item t Hne Heq) as Ht.
    destruct (Add_cases
                (set_items fi ({[strings.ToLower (strings.TrimSpace item)]} ∪ items fi))
                t fs1 e')
      as [[? _]|[(_ & _ & ->)|(_ & Hn & _)]]; [done..|].
    destruct Hn. simpl. rewrite Heq. set_solver.
Qed.

Lemma X7_no_retry_after_failed_append_witness :
  Add foo_store " Foo " fresh_disk calm = (foo_store, fresh_disk, Some AlreadyExists).
Proof.
  apply (X7_no_retry_after_failed_append fresh_store " Foo " fresh_disk no_append
           foo_store fresh_disk (PathError EACCES)).
  - vm_compute. reflexivity.
  - right. exists EACCES. reflexivity.
  - reflexivity.
Defined.

(** ** What the calls do to the file system *)

Lemma WriteFile_other name data fs o fs' r q :
  os.WriteFile name data fs o = (fs', r) → q ≠ name → fs' !! q = fs !! q.
Proof.
  unfold os.WriteFile. destruct o as [[]|]; intros [= <- _] Hq;
    by rewrite ?lookup_insert_ne.
Qed.

Lemma WriteString_other f s fs o fs' r q :
  os.WriteString f s fs o = (fs', r) → q ≠ os.Name f → fs' !! q = fs !! q.
Proof.
  unfold os.WriteString. destruct o as [[]|]; intros [= <- _] Hq;
    by rewrite lookup_insert_ne.
Qed.

Lemma WriteString_grows f s fs o fs' r old :
  os.WriteString f s fs o = (fs', r) → fs !! os.Name f = Some old →
  ∃ new, fs' !! os.Name f = Some new ∧ grown_from old new ∧ (r = None → new = old +:+ s).
Proof.
  unfold os.WriteString. intros H Hold. rewrite Hold in H. simpl in H.
  destruct o as [[n cause]|]; injection H as <- <-; rewrite lookup_insert_eq;
    eexists; (split; [done|]); (split; [by eexists|done]).
Qed.

Lemma grown_from_refl s : grown_from s s.
Proof. exists "". by rewrite app_nil_r. Qed.

Lemma grown_from_trans a b c : grown_from a b → grown_from b c → grown_from a c.
Proof. intros [u ->] [v ->]. exists (u +:+ v). by rewrite app_assoc. Qed.

Lemma appendToFile_other fi item fs e fs' r q :
  appendToFile fi item fs e = (fs', r) → q ≠ path fi → fs' !! q = fs !! q.
Proof.
  unfold appendToFile, os.OpenFile. intros H Hq.
  destruct (on_OpenFile e); [by injection H as <- _|].
  assert (∀ fs0, fs0 !! q = fs !! q →
    (let '(fs1, err) :=
       if match os.Stat {| os.Name := path fi |} fs0 with
          | Some stat => (0 <? os.Size stat)%nat
          | None => false
          end
       then os.WriteString {| os.Name := path fi |} lf fs0 (on_newline e)
       else (fs0, None) in
     match err with
     | Some err => (fs1, Some err)
     | None => os.WriteString {| os.Name := path fi |} item fs1 (on_item e)
     end) = (fs', r) → fs' !! q = fs !! q) as Hbody.
  { intros fs0 H0. destruct (match os.Stat _ fs0 with Some _ => _ | None => _ end).
    - destruct (os.WriteString _ lf fs0 _) as [fs1 [err|]] eqn:E1.
      + intros [= <- _]. by rewrite (WriteString_other _ _ _ _ _ _ _ E1).
      + intros E2. rewrite (WriteString_other _ _ _ _ _ _ _ E2) by done.
        by rewrite (WriteString_other _ _ _ _ _ _ _ E1).
    - intros E2. by rewrite (WriteString_other _ _ _ _ _ _ _ E2). }
  destruct (fs !! path fi); apply (Hbody _) in H; [done..|].
  by rewrite lookup_insert_ne.
Qed.

Lemma appendToFile_grows fi item fs e fs' r old :
  appendToFile fi item fs e = (fs', r) → fs !! path fi = Some old →
  ∃ new, fs' !! path fi = Some new ∧ grown_from old new ∧
         (r = None → new = appended old item).
Proof.
  unfold appendToFile, os.OpenFile, os.Stat, appended. intros H Hold.
  destruct (on_OpenFile e).
  { injection H as <- <-. exists old. split; [done|]. split; [apply grown_from_refl|done]. }
  rewrite Hold in H. simpl in H. rewrite Hold in H. simpl in H.
  destruct (0 <? String.length old)%nat.
  - destruct (os.WriteString _ lf fs _) as [fs1 [err|]] eqn:E1.
    + injection H as <- <-.
      destruct (WriteString_grows _ _ _ _ _ _ old E1 Hold) as (new & ? & ? & _).
      exists new. done.
    + destruct (WriteString_grows _ _ _ _ _ _ old E1 Hold) as (mid & Hmid & _ & Hm).
      rewrite (Hm eq_refl) in Hmid.
      destruct (WriteString_grows _ _ _ _ _ _ _ H Hmid) as (new & ? & Hg & Hn).
      exists new. split; [done|]. split; [|done].
      apply (grown_from_trans _ (old +:+ lf)); [by eexists|done].
  - destruct (WriteString_grows _ _ _ _ _ _ old H Hold) as (new & ? & ? & ?).
    exists new. done.
Qed.

Lemma New_file_system p fs e r fs' :
  New p fs e = (r, fs') →
  (is_Some (fs !! p) → fs' = fs) ∧ (∀ q, q ≠ p → fs' !! q = fs !! q).
Proof.
  unfold New, load.
  destruct (ReadFile_cases p fs (on_ReadFile e))
    as [(data & Hp & _ & Hr)|[(Hp & _ & Hr)|(cause & _ & Hr)]]; simpl; rewrite Hr; simpl.
  - by intros [= _ <-].
  - destruct (os.WriteFile p "" fs (on_WriteFile e)) as [fs1 [err|]] eqn:E;
      intros [= _ <-]; (split; [rewrite Hp; by intros [? ?]|]);
      intros q Hq; by rewrite (WriteFile_other _ _ _ _ _ _ _ E).
  - by intros [= _ <-].
Qed.

(** X8. The package touches no file but the backing file: [New] leaves
    every other path as it was and writes nothing at all when the file
    exists; [Add] and [Remove], whatever they return, keep the path of the
    store and leave every other path as it was. *)
Theorem X8_only_the_backing_file q :
  (∀ p fs e r fs',
     New p fs e = (r, fs') →
     (q ≠ p → fs' !! q = fs !! q) ∧ (is_Some (fs !! p) → fs' = fs)) ∧
  (∀ c fi fs e fi' fs' r,
     run c fi fs e = (fi', fs', r) →
     path fi' = path fi ∧ (q ≠ path fi → fs' !! q = fs !! q)).
Proof.
  split.
  - intros p fs e r fs' [Hsame Hother]%New_file_system. split; [apply Hother|done].
  - intros [item|item] fi fs e fi' fs' r; simpl.
    + destruct (Add_cases fi item fs e)
        as [[_ ->]|[(_ & _ & ->)|(_ & _ & fs1 & r1 & Ha & ->)]];
        intros [= <- <- <-]; (split; [done|]); [done..|].
      intros Hq. by apply (appendToFile_other _ _ _ _ _ _ _ Ha).
    + destruct (Remove_cases fi item fs e)
        as [[_ ->]|[(_ & _ & ->)|(_ & _ & fs1 & r1 & Hw & ->)]];
        intros [= <- <- <-]; (split; [done|]); [done..|].
      intros Hq. by apply (WriteFile_other _ _ _ _ _ _ _ Hw).
Qed.

(** X9. [Add] never takes a byte out of the backing file: whatever it
    returns, also when a write fails half way, the content of an existing
    file after the call begins with the content before it; when [Add]
    returns success, what it added is the trimmed item in the case of the
    caller, after a line feed when the file was not empty. *)
Theorem X9_Add_only_appends fi item fs e fi' fs' r old :
  fs !! path fi = Some old →
  Add fi item fs e = (fi', fs', r) →
  ∃ new, fs' !! path fi = Some new ∧ grown_from old new ∧
         (r = None → new = appended old (strings.TrimSpace item)).
Proof.
  intros Hold.
  destruct (Add_cases fi item fs e)
    as [[_ ->]|[(_ & _ & ->)|(_ & _ & fs1 & r1 & Ha & ->)]]; intros [= <- <- <-].
  - exists old. split; [done|]. split; [apply grown_from_refl|done].
  - exists old. split; [done|]. split; [apply grown_from_refl|done].
  - by apply (appendToFile_grows _ _ _ _ _ _ old) in Ha.
Qed.

Lemma X9_Add_only_appends_witness :
  ∃ new, ({[entries_txt := "Foo" +:+ lf +:+ "Ba"]} : filesystem) !! path foo_store = Some new ∧
         grown_from "Foo" new ∧
         (Some (PathError ENOSPC) = None → new = appended "Foo" (strings.TrimSpace "Bar")).
Proof.
  apply (X9_Add_only_appends foo_store "Bar" foo_disk
           {| on_ReadFile := None; on_WriteFile := None; on_OpenFile := None;
              on_newline := None; on_item := Some (2, ENOSPC); range_order := in_order |}
           {| path := entries_txt; items := {["bar"; "foo"]} |}).
  - reflexivity.
  - vm_compute. reflexivity.
Defined.

(** ** What [New] loads *)

Lemma line_entries_elem x ls :
  x ∈ line_entries ls ↔
  ∃ l, l ∈ ls ∧ strings.TrimSpace l ≠ "" ∧ x = strings.ToLower (strings.TrimSpace l).
Proof.
  split; [apply elem_of_line_entries|].
  intros (l & Hl & Hne & ->). induction ls as [|l' ls IH]; [by apply elem_of_nil in Hl|].
  rewrite line_entries_cons. apply elem_of_cons in Hl as [<-|Hl].
  - rewrite bool_decide_eq_false_2 by done. set_solver.
  - case_bool_decide; [by apply IH|]. set_solver.
Qed.

(** X10. The store that [New] returns over an existing file holds [x]
    exactly when some line of the file, as cut at the line feeds, is not
    blank and has [x] as its trimmed, lowercased form. *)
Theorem X10_loaded_entries p fs e content fi fs' x :
  fs !! p = Some content →
  New p fs e = (inl fi, fs') →
  x ∈ items fi ↔
  ∃ line, line ∈ strings.Split content lf ∧
          strings.TrimSpace line ≠ "" ∧
          x = strings.ToLower (strings.TrimSpace line).
Proof.
  intros Hp HN. destruct (on_ReadFile e) as [cause|] eqn:He.
  - revert HN. unfold New, load, os.ReadFile. simpl. by rewrite He.
  - rewrite (New_existing _ _ _ _ Hp He) in HN. injection HN as <- _. simpl.
    by rewrite parse_file_lines, line_entries_elem.
Qed.

Lemma X10_loaded_entries_witness :
  "bar" ∈ ({["foo"; "bar"]} : gset string) ↔
  ∃ line, line ∈ strings.Split ("Foo" +:+ crlf +:+ " BAR ") lf ∧
          strings.TrimSpace line ≠ "" ∧
          "bar" = strings.ToLower (strings.TrimSpace line).
Proof.
  refine (X10_loaded_entries entries_txt {[entries_txt := "Foo" +:+ crlf +:+ " BAR "]} calm
            ("Foo" +:+ crlf +:+ " BAR ")
            {| path := entries_txt; items := {["foo"; "bar"]} |}
            {[entries_txt := "Foo" +:+ crlf +:+ " BAR "]} "bar" _ _).
  - vm_compute. reflexivity.
  - vm_compute. reflexivity.
Defined.

(** X11. The two kinds of line end load alike: over a file and over the
    same file with every ["\r\n"] made ["\n"], [New] returns the same
    store. *)
Theorem X11_line_ends_load_alike p fs e content fi1 fs1 fi2 fs2 :
  New p (<[p := content]> fs) e = (inl fi1, fs1) →
  New p (<[p := strings.ReplaceAll content crlf lf]> fs) e = (inl fi2, fs2) →
  fi1 = fi2.
Proof.
  destruct (on_ReadFile e) as [cause|] eqn:He.
  { unfold New, load, os.ReadFile. simpl. by rewrite He. }
  rewrite (New_existing _ _ _ content) by (by rewrite ?lookup_insert_eq).
  rewrite (New_existing _ _ _ (strings.ReplaceAll content crlf lf))
    by (by rewrite ?lookup_insert_eq).
  intros [= <- _] [= <- _]. f_equal.
  by rewrite (parse_file_lines (strings.ReplaceAll content crlf lf)).
Qed.

Lemma X11_line_ends_load_alike_witness :
  {| path := entries_txt; items := {["foo"; "bar"]} |}
  = {| path := entries_txt; items := {["foo"; "bar"]} |}.
Proof.
  apply (X11_line_ends_load_alike entries_txt ∅ calm ("Foo" +:+ crlf +:+ "Bar" +:+ crlf)
           _ {[entries_txt := "Foo" +:+ crlf +:+ "Bar" +:+ crlf]}
           _ {[entries_txt := "Foo" +:+ lf +:+ "Bar" +:+ lf]}).
  - vm_compute. reflexivity.
  - vm_compute. reflexivity.
Defined.

(** ** Opening the store again *)

Lemma rejected_unchanged c fi fs e fi' fs' err :
  run c fi fs e = (fi', fs', Some err) → validation_error err →
  fi' = fi ∧ fs' = fs.
Proof.
  intros Hrun Hv. destruct c as [item|item]; simpl in Hrun.
  - destruct (Add_cases fi item fs e)
      as [[_ Hc]|[(_ & _ & Hc)|(_ & _ & fs1 & r & Ha & Hc)]];
      rewrite Hc in Hrun; injection Hrun as <- <- E; [done..|].
    subst r. apply appendToFile_error in Ha as [cause ->].
    by destruct (validation_error_not_PathError _ Hv cause).
  - destruct (Remove_cases fi item fs e)
      as [[_ Hc]|[(_ & _ & Hc)|(_ & _ & fs1 & r & Hw & Hc)]];
      rewrite Hc in Hrun; injection Hrun as <- <- E; [done..|].
    subst r. apply rewriteFile_error in Hw as [cause ->].
    by destruct (validation_error_not_PathError _ Hv cause).
Qed.

Lemma reachable_in_step_one_line fi fs :
  reachable_in_step fi fs → reachable_one_line fi fs.
Proof.
  induction 1 as [p fs e fi fs' H|item fi fs e fi' fs' r _ IH Hl H _
                 |item fi fs e fi' fs' r _ IH H _].
  - by eapply one_line_New.
  - by eapply one_line_Add.
  - by eapply one_line_Remove.
Qed.

Lemma reachable_in_step_synced fi fs :
  reachable_in_step fi fs → disk_entries fi fs = Some (items fi).
Proof.
  induction 1 as [p fs e fi fs' H|item fi fs e fi' fs' r Hs IH Hl H Hr
                 |item fi fs e fi' fs' r Hs IH H Hr].
  - by eapply New_synced.
  - destruct r as [err|].
    + by destruct (rejected_unchanged (CallAdd item) _ _ _ _ _ _ H Hr) as [-> ->].
    + apply Add_succeeded in H as (Hne & _ & -> & Ha).
      by apply (appendToFile_synced _ _ _ _ _ (items fi)) in Ha;
        [|apply TrimSpace_idem|..].
  - destruct r as [err|].
    + by destruct (rejected_unchanged (CallRemove item) _ _ _ _ _ _ H Hr) as [-> ->].
    + apply reachable_in_step_one_line in Hs.
      apply Remove_succeeded in H as (_ & _ & -> & Hw).
      apply rewriteFile_synced in Hw; [done|..]; intros x Hin; simpl in Hin.
      * apply (reachable_normalized fi fs); [by apply reachable_one_line_reachable|set_solver].
      * apply (reachable_one_line_entries fi fs Hs). set_solver.
Qed.

(** X12. As long as no call has failed on the file system and no [Add]
    was given an item with a line feed inside, opening the backing file
    again gives back the store that is in memory: [New] over the path of
    the store returns no other store, returns it when the file can be
    read, and leaves the file system as it is. *)
Theorem X12_reopen_gives_the_same_store fi fs e :
  reachable_in_step fi fs →
  (∀ fi2 fs2, New (path fi) fs e = (inl fi2, fs2) → fi2 = fi ∧ fs2 = fs) ∧
  (on_ReadFile e = None → New (path fi) fs e = (inl fi, fs)).
Proof.
  intros Hs%reachable_in_step_synced. unfold disk_entries in Hs.
  destruct (fs !! path fi) as [content|] eqn:Hp; [|done].
  injection Hs as Hs.
  assert ({| path := path fi; items := parse_file content |} = fi) as Hfi
    by (rewrite Hs; by destruct fi).
  split.
  - intros fi2 fs2. destruct (on_ReadFile e) as [cause|] eqn:He.
    + unfold New, load, os.ReadFile. simpl. by rewrite He.
    + rewrite (New_existing _ _ _ _ Hp He), Hfi. by intros [= <- <-].
  - intros He. by rewrite (New_existing _ _ _ _ Hp He), Hfi.
Qed.

Lemma X12_reopen_gives_the_same_store_witness :
  New entries_txt foo_disk calm = (inl foo_store, foo_disk).
Proof.
  refine (proj2 (X12_reopen_gives_the_same_store foo_store foo_disk calm _) eq_refl).
  refine (in_step_Add " Foo " fresh_store fresh_disk calm _ _ None _ _ _ I).
  - exact (in_step_New _ _ _ _ _ fresh_store_New).
  - vm_compute. reflexivity.
  - vm_compute. reflexivity.
Defined.

(** ** Counting the entries *)

(** X13. A call that returns success changes the number of entries by
    one: [Add] makes the set one larger, [Remove] one smaller; a call that
    returns a validation error leaves the number as it is. *)
Theorem X13_number_of_entries c fi fs e fi' fs' r :
  run c fi fs e = (fi', fs', r) →
  no_io_failure r →
  match r, c with
  | None, CallAdd _ => size (items fi') = S (size (items fi))
  | None, CallRemove _ => S (size (items fi')) = size (items fi)
  | Some _, _ => size (items fi') = size (items fi)
  end.
Proof.
  intros Hrun Hr. destruct r as [err|].
  { by destruct (rejected_unchanged c _ _ _ _ _ _ Hrun Hr) as [-> _]. }
  destruct c as [item|item]; simpl in Hrun.
  - apply Add_succeeded in Hrun as (_ & Hx & -> & _). simpl.
    rewrite size_union by set_solver. by rewrite size_singleton.
  - apply Remove_succeeded in Hrun as (_ & Hx & -> & _). simpl.
    rewrite size_difference by set_solver. rewrite size_singleton.
    assert (size (items fi) ≠ 0); [|lia].
    intros H0%size_empty_inv. set_solver.
Qed.

Lemma X13_number_of_entries_witness :
  size (items foo_store) = S (size (items fresh_store)).
Proof.
  exact (X13_number_of_entries (CallAdd " Foo ") fresh_store fresh_disk calm
           foo_store foo_disk None foo_store_Add I).
Defined.

(** ** The lines of the backing file *)

Lemma Values_nil s o : gq.Values s o = [] ↔ s = ∅.
Proof.
  split.
  - intros H. apply set_eq. intros x. rewrite <-(elem_of_Values x s o), H. set_solver.
  - intros ->. apply Permutation_nil_r. by rewrite Values_perm, elements_empty.
Qed.

(** X14. After a [Remove] that returned success, in a state reached
    without an item with a line feed inside, every entry of the set is one
    line of the backing file and the file has no other line: cut at the
    line feeds, a file for a set that is not empty gives the entries, each
    once; the file for the empty set is empty. *)
Theorem X14_one_entry_per_line fi fs s e fi' fs' :
  reachable_one_line fi fs →
  Remove fi s fs e = (fi', fs', None) →
  ∃ content,
    fs' !! path fi' = Some content ∧
    (items fi' = ∅ → content = "") ∧
    (items fi' ≠ ∅ → strings.Split content lf ≡ₚ elements (items fi')).
Proof.
  intros Hr (_ & _ & -> & Hw)%Remove_succeeded.
  apply rewriteFile_ok in Hw. simpl in Hw.
  set (rest := items fi ∖ {[strings.ToLower (strings.TrimSpace s)]}) in *.
  exists (strings.Join (gq.Values rest (range_order e)) lf). simpl.
  split; [by rewrite Hw, lookup_insert_eq|]. split.
  - intros He. by rewrite (proj2 (Values_nil _ _) He).
  - intros Hne. rewrite Split_Join.
    + apply Values_perm.
    + by rewrite Values_nil.
    + apply Forall_forall. intros x Hx%elem_of_Values.
      apply (reachable_one_line_entries fi fs Hr). set_solver.
Qed.

Lemma X14_one_entry_per_line_witness :
  ∃ content,
    fresh_disk !! path fresh_store = Some content ∧
    (items fresh_store = ∅ → content = "") ∧
    (items fresh_store ≠ ∅ → strings.Split content lf ≡ₚ elements (items fresh_store)).
Proof.
  apply (X14_one_entry_per_line foo_store foo_disk "foo" calm fresh_store fresh_disk).
  - exact foo_store_reachable_one_line.
  - vm_compute. reflexivity.
Defined.

(** X15. An [Add] that returns success, of an item without line feed
    inside, adds one line to the backing file and leaves the others: cut
    at the line feeds, the file is the lines it had, none for an empty
    file, followed by the trimmed item in the case of the caller. *)
Theorem X15_Add_appends_one_line fi item fs e fi' fs' old :
  fs !! path fi = Some old →
  one_line (strings.TrimSpace item) = true →
  Add fi item fs e = (fi', fs', None) →
  ∃ new,
    fs' !! path fi = Some new ∧
    strings.Split new lf =
      (if bool_decide (old = "") then [] else strings.Split old lf)
      ++ [strings.TrimSpace item].
Proof.
  intros Hold Hl (_ & _ & -> & Ha)%Add_succeeded.
  apply appendToFile_ok in Ha. simpl in Ha. rewrite Hold in Ha. simpl in Ha.
  exists (appended old (strings.TrimSpace item)).
  split; [by rewrite Ha, lookup_insert_eq|].
  unfold appended. destruct old as [|c old]; simpl.
  - change ("" +:+ strings.TrimSpace item) with (strings.TrimSpace item).
    by rewrite Split_one_line.
  - rewrite app_assoc. change (lf +:+ strings.TrimSpace item)
      with (String strings.LF (strings.TrimSpace item)).
    by rewrite Split_app, (Split_one_line (strings.TrimSpace item)).
Qed.

Lemma X15_Add_appends_one_line_witness :
  ∃ new,
    ({[entries_txt := "Foo" +:+ lf +:+ "Bar"]} : filesystem) !! path foo_store = Some new ∧
    strings.Split new lf =
      (if bool_decide ("Foo" = "") then [] else strings.Split "Foo" lf)
      ++ [strings.TrimSpace " Bar "].
Proof.
  apply (X15_Add_appends_one_line foo_store " Bar " foo_disk calm
           {| path := entries_txt; items := {["bar"; "foo"]} |}).
  - reflexivity.
  - vm_compute. reflexivity.
  - vm_compute. reflexivity.
Defined.

(** ** [New] on any file *)

(** X16. [New] takes every content of the file: when neither the read
    nor the creation of a missing file fails, it returns a store for the
    path, whatever the file holds; and an error of [New] is never one of
    the validation but the failure of the file system. *)
Theorem X16_New_takes_any_file p fs e :
  (on_ReadFile e = None → on_WriteFile e = None →
   ∃ fi fs', New p fs e = (inl fi, fs') ∧ path fi = p ∧ is_Some (fs' !! p)) ∧
  (∀ err fs', New p fs e = (inr err, fs') → IOFailure err ∧ ¬ validation_error err).
Proof.
  split.
  - intros Hr Hw. destruct (fs !! p) as [content|] eqn:Hp.
    + eexists _, _. split; [by apply New_existing|]. by rewrite Hp.
    + eexists _, _. split; [apply New_missing; [|done]|].
      * unfold os.ReadFile. by rewrite Hr, Hp.
      * split; [done|]. by rewrite lookup_insert_eq.
  - intros err fs' [cause ->]%New_error. split; [right; eauto|].
    intros Hv. by destruct (validation_error_not_PathError _ Hv cause).
Qed.

Lemma X16_New_takes_any_file_witness :
  ∃ fi fs', New entries_txt {[entries_txt := lf +:+ lf +:+ " " +:+ crlf]} calm = (inl fi, fs') ∧
            path fi = entries_txt ∧ is_Some (fs' !! entries_txt).
Proof.
  exact (proj1 (X16_New_takes_any_file entries_txt
                  {[entries_txt := lf +:+ lf +:+ " " +:+ crlf]} calm) eq_refl eq_refl).
Defined.

(** ** Getting back in step *)

(** X17. A [Remove] that returns success brings the file back in step
    with the store, also after calls that failed on the file system: in
    every state reached without an item with a line feed inside, [New]
    over the path of the store and the file system that [Remove] left
    returns no other store than the one in memory, and returns it when
    the file can be read. *)
Theorem X17_Remove_then_reopen fi fs s e fi' fs' e' :
  reachable_one_line fi fs →
  Remove fi s fs e = (fi', fs', None) →
  (∀ fi2 fs2, New (path fi') fs' e' = (inl fi2, fs2) → fi2 = fi' ∧ fs2 = fs') ∧
  (on_ReadFile e' = None → New (path fi') fs' e' = (inl fi', fs')).
Proof.
  intros Hr (_ & _ & -> & Hw)%Remove_succeeded.
  set (fi' := set_items fi (items fi ∖ {[strings.ToLower (strings.TrimSpace s)]})) in *.
  assert (disk_entries fi' fs' = Some (items fi')) as Hs.
  { apply rewriteFile_synced in Hw; [done|..]; intros x Hin; simpl in Hin.
    - apply (reachable_normalized fi fs); [by apply reachable_one_line_reachable|set_solver].
    - apply (reachable_one_line_entries fi fs Hr). set_solver. }
  unfold disk_entries in Hs.
  destruct (fs' !! path fi') as [content|] eqn:Hp; [|done].
  injection Hs as Hs.
  assert ({| path := path fi'; items := parse_file content |} = fi') as Hfi
    by (by rewrite Hs).
  split.
  - intros fi2 fs2. destruct (on_ReadFile e') as [cause|] eqn:He.
    + unfold New, load, os.ReadFile. simpl. by rewrite He.
    + rewrite (New_existing _ _ _ _ Hp He), Hfi. by intros [= <- <-].
  - intros He. by rewrite (New_existing _ _ _ _ Hp He), Hfi.
Qed.

Lemma X17_Remove_then_reopen_witness :
  New entries_txt {[entries_txt := "foo"]} calm
  = (inl foo_store, {[entries_txt := "foo"]}).
Proof.
  refine (proj2 (X17_Remove_then_reopen
                   {| path := entries_txt; items := {["bar"; "foo"]} |} fresh_disk
                   "bar" calm foo_store {[entries_txt := "foo"]} calm _ _) eq_refl).
  - refine (one_line_Add "bar" foo_store fresh_disk no_append _ _
              (Some (PathError EACCES)) _ _ _).
    + refine (one_line_Add " Foo " fresh_store fresh_disk no_append _ _
                (Some (PathError EACCES)) fresh_store_reachable_one_line _ _).
      * vm_compute. reflexivity.
      * vm_compute. reflexivity.
    + vm_compute. reflexivity.
    + vm_compute. reflexivity.
  - vm_compute. reflexivity.
Defined.

(** ** The backing file is there *)

Lemma run_keeps_the_file c fi fs e fi' fs' r :
  run c fi fs e = (fi', fs', r) → is_Some (fs !! path fi) → is_Some (fs' !! path fi).
Proof.
  intros Hrun [old Hold]. destruct c as [item|item]; simpl in Hrun.
  - destruct (Add_cases fi item fs e)
      as [[_ Hc]|[(_ & _ & Hc)|(_ & _ & fs1 & r1 & Ha & Hc)]];
      rewrite Hc in Hrun; injection Hrun as <- <- <-; [by rewrite Hold..|].
    destruct (appendToFile_grows _ _ _ _ _ _ old Ha) as (new & Hn & _); [done|].
    simpl in Hn. by rewrite Hn.
  - destruct (Remove_cases fi item fs e)
      as [[_ Hc]|[(_ & _ & Hc)|(_ & _ & fs1 & r1 & Hw & Hc)]];
      rewrite Hc in Hrun; injection Hrun as <- <- <-; [by rewrite Hold..|].
    revert Hw. unfold rewriteFile, os.WriteFile. simpl.
    destruct (on_WriteFile e) as [[]|]; intros [= <- _];
      by rewrite ?lookup_insert_eq, ?Hold.
Qed.

(** X18. The backing file of a store exists in every state that the
    package can reach, whatever failed on the way: [New] returns a store
    only over a file that it read or created, and no call takes the file
    away. *)
Theorem X18_the_backing_file_exists fi fs :
  reachable fi fs → is_Some (fs !! path fi).
Proof.
  induction 1 as [p fs e fi fs' H|c fi fs e fi' fs' r _ IH H].
  - apply New_inl in H as (-> & content & -> & _). done.
  - pose proof (run_keeps_the_file _ _ _ _ _ _ _ H IH) as Hk.
    destruct c as [item|item]; simpl in H.
    + apply Add_items in H as [-> _]. done.
    + apply Remove_items in H as [-> _]. done.
Qed.

Lemma X18_the_backing_file_exists_witness : is_Some (foo_disk !! path foo_store).
Proof. exact (X18_the_backing_file_exists foo_store foo_disk foo_store_reachable). Defined.
